(** * ascii-render: a shallow embedding of the pixel-to-glyph renderer

    The development follows the TypeScript sources of [src/ascii-render]:
    [colors.ts], [symbols.ts], [mapper.ts] and [renderer.ts].

    Numbers.  A JavaScript [number] is an IEEE-754 binary64 value.
    - Colour channels, thresholds and interpolation factors are kept as
      primitive binary64 floats ([PrimFloat.float]), so that products such as
      [0.299 * r], divisions and [Math.round] are computed exactly as the
      engine computes them.
    - Pixel coordinates, loop counters, dash flags, thicknesses, array
      lengths and bit patterns are integers in the program; they are kept in
      [Z].  Binary64 arithmetic on integers is exact as long as the operands
      and the results stay below 2^53 in magnitude, which is the range this
      embedding speaks about.  Bit operators
      ([|], [^], [&], [<<], [>>]) work on 32-bit two's-complement words and
      their wrap-around is written out ([toInt32], shift counts modulo 32).
    - Where the magnitude decides the behaviour the numbers are binary64
      again: the dimensions of [createBuffer] (the array constructor reads
      them through [ToLength] and refuses 2^32 or more), and the loop of
      [drawLine], embedded a second time on binary64 ([bresenham64]) and
      proved to walk as the integer loop does below 2^50.

    Strings are sequences of UTF-16 code units ([list Z]), because
    [String.prototype.length], indexing and [slice] count code units. *)

From Stdlib Require Import ZArith Bool List Lia Floats Uint63 String Ascii DecimalString.
From stdpp Require Import base list.

Set Warnings "-inexact-float,-notation-for-abbreviation".
Local Open Scope Z_scope.

(* ================================================================= *)
(** ** JavaScript primitives used by the sources *)

Module Js.

Notation JsString := (list Z).

(** A string literal made of ASCII characters, as code units. *)
Definition js (s : string) : JsString :=
  map (fun c => Z.of_N (N_of_ascii c)) (list_ascii_of_string s).

(** An integer as a binary64 number (exact below 2^53). *)
Definition Z2f (z : Z) : float :=
  if z <? 0 then PrimFloat.opp (PrimFloat.of_uint63 (Uint63.of_Z (- z)))
  else PrimFloat.of_uint63 (Uint63.of_Z z).

(** [Math.round]: the nearest integer, ties towards +infinity; NaN, the
    infinities and the zeros are returned unchanged; a result of zero keeps
    the sign of the argument. *)
Definition Math_round (x : float) : float :=
  match Prim2SF x with
  | S754_finite s m e =>
      if 0 <=? e then x
      else
        let v := if s then Z.neg m else Z.pos m in
        let n := (2 * v + 2 ^ (- e)) / 2 ^ (1 - e) in
        if n =? 0 then (if s then PrimFloat.neg_zero else PrimFloat.zero) else Z2f n
  | _ => x
  end.

(** [Math.max] and [Math.min] on two arguments: NaN is contagious and
    [+0] is larger than [-0]. *)
Definition Math_max (a b : float) : float :=
  if is_nan a || is_nan b then nan
  else if PrimFloat.ltb a b then b
  else if PrimFloat.ltb b a then a
  else if get_sign a then b else a.

Definition Math_min (a b : float) : float :=
  if is_nan a || is_nan b then nan
  else if PrimFloat.ltb a b then a
  else if PrimFloat.ltb b a then b
  else if get_sign a then a else b.

(** [Number::toString] on the values that reach a template literal in the
    sources: NaN, the infinities and integer values (the only outputs of
    [clampByte]); the fractional digits of other numbers are not modelled. *)
Definition decimal (z : Z) : JsString :=
  js (NilZero.string_of_int (Z.to_int z)).

Definition NumberToString (x : float) : JsString :=
  match Prim2SF x with
  | S754_nan => js "NaN"
  | S754_zero _ => js "0"
  | S754_infinity s => (if s then js "-" else []) ++ js "Infinity"
  | S754_finite s m e =>
      let v := if s then Z.neg m else Z.pos m in
      decimal (if 0 <=? e then v * 2 ^ e else v / 2 ^ (- e))
  end.

(** [ToInt32]: reduction to a signed 32-bit word. *)
Definition toInt32 (z : Z) : Z := (z + 2 ^ 31) mod 2 ^ 32 - 2 ^ 31.

(** [a << k], [a >> k], [a | b], [a ^ b], [a & b] on 32-bit words. *)
Definition shl32 (a k : Z) : Z := toInt32 (Z.shiftl (toInt32 a) (k mod 32)).
Definition sar32 (a k : Z) : Z := Z.shiftr (toInt32 a) (k mod 32).
Definition or32 (a b : Z) : Z := Z.lor (toInt32 a) (toInt32 b).
Definition xor32 (a b : Z) : Z := Z.lxor (toInt32 a) (toInt32 b).
Definition and32 (a b : Z) : Z := Z.land (toInt32 a) (toInt32 b).

(** [String.fromCodePoint] for a valid code point, as UTF-16. *)
Definition fromCodePoint (cp : Z) : JsString :=
  if cp <? 0x10000 then [cp]
  else [0xD800 + Z.shiftr (cp - 0x10000) 10; 0xDC00 + Z.land (cp - 0x10000) 0x3FF].

(** [arr[i]] for an integer index: [undefined] outside the array. *)
Definition index {A} (l : list A) (i : Z) : option A :=
  if i <? 0 then None else l !! Z.to_nat i.

(** [a.join(sep)] on an array of strings. *)
Fixpoint join (sep : JsString) (parts : list JsString) : JsString :=
  match parts with
  | [] => []
  | [p] => p
  | p :: rest => p ++ sep ++ join sep rest
  end.

(** [s.replace(c, "")] for a one-unit pattern [c]: the first occurrence of
    [c] is removed, later ones stay. *)
Fixpoint removeFirst (c : Z) (s : JsString) : JsString :=
  match s with
  | [] => []
  | d :: rest => if d =? c then rest else d :: removeFirst c rest
  end.

(** [s.slice(i, j)] for [0 <= i <= j]. *)
Definition slice (s : JsString) (i j : nat) : JsString := take (j - i) (drop i s).

(** [s[i] ?? "0"]: the one-unit string at index [i], or ["0"]. *)
Definition unitOr0 (s : JsString) (i : nat) : JsString :=
  match s !! i with Some c => [c] | None => js "0" end.

(** White space and line terminators skipped by [parseInt]. *)
Definition isWhiteSpace (c : Z) : bool :=
  (c =? 0x09) || (c =? 0x0A) || (c =? 0x0B) || (c =? 0x0C) || (c =? 0x0D)
  || (c =? 0x20) || (c =? 0xA0) || (c =? 0x1680)
  || ((0x2000 <=? c) && (c <=? 0x200A))
  || (c =? 0x2028) || (c =? 0x2029) || (c =? 0x202F) || (c =? 0x205F)
  || (c =? 0x3000) || (c =? 0xFEFF).

Fixpoint trimStart (s : JsString) : JsString :=
  match s with
  | c :: rest => if isWhiteSpace c then trimStart rest else s
  | [] => []
  end.

Definition hexDigit (c : Z) : option Z :=
  if (48 <=? c) && (c <=? 57) then Some (c - 48)
  else if (97 <=? c) && (c <=? 102) then Some (c - 87)
  else if (65 <=? c) && (c <=? 70) then Some (c - 55)
  else None.

(** Value of the longest prefix of hex digits; [None] when it is empty. *)
Fixpoint hexPrefix (s : JsString) (acc : option Z) : option Z :=
  match s with
  | c :: rest =>
      match hexDigit c with
      | Some d => hexPrefix rest (Some (16 * default 0 acc + d))
      | None => acc
      end
  | [] => acc
  end.

(** [parseInt(s, 16)]: leading white space is skipped, one sign is read, an
    [0x]/[0X] prefix is dropped, then the longest run of hex digits is
    converted and whatever follows is ignored; no digit at all gives NaN. *)
Definition parseInt16 (s : JsString) : float :=
  let s1 := trimStart s in
  let '(neg, s2) :=
    match s1 with
    | c :: rest => if c =? 45 then (true, rest) else if c =? 43 then (false, rest) else (false, s1)
    | [] => (false, s1)
    end in
  let s3 :=
    match s2 with
    | c0 :: c1 :: rest => if (c0 =? 48) && ((c1 =? 120) || (c1 =? 88)) then rest else s2
    | _ => s2
    end in
  match hexPrefix s3 None with
  | None => nan
  | Some n =>
      if n =? 0 then (if neg then PrimFloat.neg_zero else PrimFloat.zero)
      else Z2f (if neg then - n else n)
  end.

(** [Number.isFinite]: neither NaN nor an infinity. *)
Definition isFinite (x : float) : bool := negb (is_nan x || is_infinity x).

(** [ToLength]: the array length a number stands for.  NaN and the numbers
    below 1 give 0, a fraction is dropped, and the result is capped at
    2^53 - 1. *)
Definition ToLength (x : float) : Z :=
  match Prim2SF x with
  | S754_finite false m e =>
      Z.min (2 ^ 53 - 1) (if 0 <=? e then Z.pos m * 2 ^ e else Z.pos m / 2 ^ (- e))
  | S754_infinity false => 2 ^ 53 - 1
  | _ => 0
  end.

End Js.
Import Js.

(* ================================================================= *)
(** ** types.ts *)

Module Color.
Record t := mk { r : float; g : float; b : float; a : option float }.
End Color.
Notation Color := Color.t.

Inductive SymbolSet := ASCII | HALF | QUADRANT | BRAILLE | SEXTANT.

#[global] Instance SymbolSet_eq_dec : EqDecision SymbolSet.
Proof. solve_decision. Defined.

Inductive ColorMode := NONE | TRUECOLOR.

Module RenderOptions.
Record t := mk { symbolSet : SymbolSet; colorMode : ColorMode; threshold : float }.
End RenderOptions.
Notation RenderOptions := RenderOptions.t.

Module Cell.
Record t := mk { char : JsString; fg : Color; bg : Color }.
End Cell.
Notation Cell := Cell.t.

Notation Row := (list Cell).
Notation Grid := (list (list Cell)).
Notation PixelBuffer := (list (list Color)).

Module SymbolDef.
Record t := mk { char : JsString; pattern : Z; width : Z; height : Z }.
End SymbolDef.
Notation SymbolDef := SymbolDef.t.

Module LineStyle.
Record t := mk {
  pattern : option (list Z);
  thickness : option Z;
  startColor : option Color;
  endColor : option Color }.
End LineStyle.
Notation LineStyle := LineStyle.t.

Definition DEFAULT_OPTIONS : RenderOptions := RenderOptions.mk HALF TRUECOLOR 128.

(* ================================================================= *)
(** ** colors.ts *)

(** [color.a ?? 255] *)
Definition alphaOr255 (c : Color) : float := default 255%float (Color.a c).

Definition clampByte (value : float) : float :=
  Math_max 0 (Math_min 255 (Math_round value)).

Definition ALPHA_THRESHOLD : float := 128.

Definition BLACK : Color := Color.mk 0 0 0 (Some 255%float).
Definition WHITE : Color := Color.mk 255 255 255 (Some 255%float).
Definition TRANSPARENT : Color := Color.mk 0 0 0 (Some 0%float).

Definition getBrightness (color : Color) : float :=
  clampByte (0.299 * Color.r color + 0.587 * Color.g color + 0.114 * Color.b color)%float.

Definition isPixelOn (color : Color) (threshold : float) : bool :=
  match Color.a color with
  | Some al =>
      if PrimFloat.ltb al ALPHA_THRESHOLD then false
      else PrimFloat.leb threshold (getBrightness color)
  | None => PrimFloat.leb threshold (getBrightness color)
  end.

Definition averageColors (colors : list Color) : Color :=
  match colors with
  | [] => BLACK
  | _ =>
      let '(sr, sg, sb, sa) :=
        foldl (fun '(sr, sg, sb, sa) color =>
                 (sr + Color.r color, sg + Color.g color, sb + Color.b color,
                  sa + alphaOr255 color)%float)
              (0, 0, 0, 0)%float colors in
      let n := Z2f (Z.of_nat (length colors)) in
      Color.mk (clampByte (sr / n)) (clampByte (sg / n)) (clampByte (sb / n))
               (Some (clampByte (sa / n)))
  end.

Definition blendColors (fg bg : Color) : Color :=
  let fgA := (alphaOr255 fg / 255)%float in
  let bgA := (alphaOr255 bg / 255)%float in
  let outA := (fgA + bgA * (1 - fgA))%float in
  if PrimFloat.eqb outA 0 then TRANSPARENT
  else
    Color.mk
      (clampByte ((Color.r fg * fgA + Color.r bg * bgA * (1 - fgA)) / outA))
      (clampByte ((Color.g fg * fgA + Color.g bg * bgA * (1 - fgA)) / outA))
      (clampByte ((Color.b fg * fgA + Color.b bg * bgA * (1 - fgA)) / outA))
      (Some (clampByte (outA * 255))).

Definition interpolateColor (color1 color2 : Color) (t : float) : Color :=
  let clampedT := Math_max 0 (Math_min 1 t) in
  let a1 := alphaOr255 color1 in
  let a2 := alphaOr255 color2 in
  Color.mk
    (clampByte (Color.r color1 + (Color.r color2 - Color.r color1) * clampedT))
    (clampByte (Color.g color1 + (Color.g color2 - Color.g color1) * clampedT))
    (clampByte (Color.b color1 + (Color.b color2 - Color.b color1) * clampedT))
    (Some (clampByte (a1 + (a2 - a1) * clampedT))).

Definition ESC : Z := 27.

Definition fgTruecolor (color : Color) : JsString :=
  ESC :: js "[38;2;" ++ NumberToString (clampByte (Color.r color)) ++ js ";"
      ++ NumberToString (clampByte (Color.g color)) ++ js ";"
      ++ NumberToString (clampByte (Color.b color)) ++ js "m".

Definition bgTruecolor (color : Color) : JsString :=
  ESC :: js "[48;2;" ++ NumberToString (clampByte (Color.r color)) ++ js ";"
      ++ NumberToString (clampByte (Color.g color)) ++ js ";"
      ++ NumberToString (clampByte (Color.b color)) ++ js "m".

Definition resetColors : JsString := ESC :: js "[0m".

Definition rgb (r g b : float) (a : option float) : Color :=
  Color.mk (clampByte r) (clampByte g) (clampByte b) (clampByte <$> a).

Definition hex (hexStr : JsString) : Color :=
  let clean := removeFirst 35 hexStr in
  if (length clean =? 3)%nat then
    let c0 := unitOr0 clean 0 in
    let c1 := unitOr0 clean 1 in
    let c2 := unitOr0 clean 2 in
    let r := parseInt16 (c0 ++ c0) in
    let g := parseInt16 (c1 ++ c1) in
    let b := parseInt16 (c2 ++ c2) in
    if is_nan r || is_nan g || is_nan b then BLACK
    else Color.mk r g b (Some 255%float)
  else if (length clean =? 6)%nat then
    let r := parseInt16 (slice clean 0 2) in
    let g := parseInt16 (slice clean 2 4) in
    let b := parseInt16 (slice clean 4 6) in
    if is_nan r || is_nan g || is_nan b then BLACK
    else Color.mk r g b (Some 255%float)
  else BLACK.

Definition invertColor (color : Color) : Color :=
  Color.mk (255 - Color.r color) (255 - Color.g color) (255 - Color.b color)
           (Some (alphaOr255 color)).

Definition colorsEqual (c1 c2 : Color) : bool :=
  PrimFloat.eqb (Color.r c1) (Color.r c2) && PrimFloat.eqb (Color.g c1) (Color.g c2)
  && PrimFloat.eqb (Color.b c1) (Color.b c2)
  && PrimFloat.eqb (alphaOr255 c1) (alphaOr255 c2).


(* ================================================================= *)
(** ** symbols.ts

    Glyphs are written as their UTF-16 code units: the block elements
    U+2580..U+259F take one unit, the sextants U+1FB00..U+1FB3B take the
    surrogate pair [0xD83E; 0xDF00 + k]. *)

Definition ASCII_SYMBOLS : list SymbolDef :=
  [ SymbolDef.mk [0x20] 0 1 1;
    SymbolDef.mk [0x2E] 1 1 1;
    SymbolDef.mk [0x2C] 1 1 1;
    SymbolDef.mk [0x2D] 1 1 1;
    SymbolDef.mk [0x7E] 1 1 1;
    SymbolDef.mk [0x2B] 1 1 1;
    SymbolDef.mk [0x3D] 1 1 1;
    SymbolDef.mk [0x2A] 1 1 1;
    SymbolDef.mk [0x23] 1 1 1;
    SymbolDef.mk [0x40] 1 1 1 ].

Definition HALF_BLOCK_SYMBOLS : list SymbolDef :=
  [ SymbolDef.mk [0x20] 0 1 2;
    SymbolDef.mk [0x2580] 1 1 2;
    SymbolDef.mk [0x2584] 2 1 2;
    SymbolDef.mk [0x2588] 3 1 2 ].

Definition QUADRANT_SYMBOLS : list SymbolDef :=
  [ SymbolDef.mk [0x20] 0 2 2;
    SymbolDef.mk [0x2598] 1 2 2;
    SymbolDef.mk [0x259D] 2 2 2;
    SymbolDef.mk [0x2580] 3 2 2;
    SymbolDef.mk [0x2596] 4 2 2;
    SymbolDef.mk [0x258C] 5 2 2;
    SymbolDef.mk [0x259E] 6 2 2;
    SymbolDef.mk [0x259B] 7 2 2;
    SymbolDef.mk [0x2597] 8 2 2;
    SymbolDef.mk [0x259A] 9 2 2;
    SymbolDef.mk [0x2590] 10 2 2;
    SymbolDef.mk [0x259C] 11 2 2;
    SymbolDef.mk [0x2584] 12 2 2;
    SymbolDef.mk [0x2599] 13 2 2;
    SymbolDef.mk [0x259F] 14 2 2;
    SymbolDef.mk [0x2588] 15 2 2 ].

Definition BRAILLE_BASE : Z := 0x2800.

Definition getBrailleChar (pattern : Z) : JsString :=
  fromCodePoint (BRAILLE_BASE + and32 pattern 0xff).

Module BRAILLE_DOTS.
Definition DOT1 : Z := 1.
Definition DOT2 : Z := 2.
Definition DOT3 : Z := 4.
Definition DOT4 : Z := 8.
Definition DOT5 : Z := 16.
Definition DOT6 : Z := 32.
Definition DOT7 : Z := 64.
Definition DOT8 : Z := 128.
End BRAILLE_DOTS.

Definition generateBrailleSymbols : list SymbolDef :=
  map (fun pattern => SymbolDef.mk (getBrailleChar pattern) pattern 2 4) (seqZ 0 256).

Definition BRAILLE_SYMBOLS : list SymbolDef := generateBrailleSymbols.

Definition SEXTANT_SYMBOLS : list SymbolDef :=
  [ SymbolDef.mk [0x20] 0 2 3;
    SymbolDef.mk [0xD83E; 0xDF00] 1 2 3;
    SymbolDef.mk [0xD83E; 0xDF01] 2 2 3;
    SymbolDef.mk [0xD83E; 0xDF02] 3 2 3;
    SymbolDef.mk [0xD83E; 0xDF03] 4 2 3;
    SymbolDef.mk [0xD83E; 0xDF04] 5 2 3;
    SymbolDef.mk [0xD83E; 0xDF05] 6 2 3;
    SymbolDef.mk [0xD83E; 0xDF06] 7 2 3;
    SymbolDef.mk [0xD83E; 0xDF07] 8 2 3;
    SymbolDef.mk [0xD83E; 0xDF08] 9 2 3;
    SymbolDef.mk [0xD83E; 0xDF09] 10 2 3;
    SymbolDef.mk [0xD83E; 0xDF0A] 11 2 3;
    SymbolDef.mk [0xD83E; 0xDF0B] 12 2 3;
    SymbolDef.mk [0xD83E; 0xDF0C] 13 2 3;
    SymbolDef.mk [0xD83E; 0xDF0D] 14 2 3;
    SymbolDef.mk [0xD83E; 0xDF0E] 15 2 3;
    SymbolDef.mk [0xD83E; 0xDF0F] 16 2 3;
    SymbolDef.mk [0xD83E; 0xDF10] 17 2 3;
    SymbolDef.mk [0xD83E; 0xDF11] 18 2 3;
    SymbolDef.mk [0xD83E; 0xDF12] 19 2 3;
    SymbolDef.mk [0xD83E; 0xDF13] 20 2 3;
    SymbolDef.mk [0x258C] 21 2 3;
    SymbolDef.mk [0xD83E; 0xDF14] 22 2 3;
    SymbolDef.mk [0xD83E; 0xDF15] 23 2 3;
    SymbolDef.mk [0xD83E; 0xDF16] 24 2 3;
    SymbolDef.mk [0xD83E; 0xDF17] 25 2 3;
    SymbolDef.mk [0xD83E; 0xDF18] 26 2 3;
    SymbolDef.mk [0xD83E; 0xDF19] 27 2 3;
    SymbolDef.mk [0xD83E; 0xDF1A] 28 2 3;
    SymbolDef.mk [0xD83E; 0xDF1B] 29 2 3;
    SymbolDef.mk [0xD83E; 0xDF1C] 30 2 3;
    SymbolDef.mk [0xD83E; 0xDF1D] 31 2 3;
    SymbolDef.mk [0xD83E; 0xDF1E] 32 2 3;
    SymbolDef.mk [0xD83E; 0xDF1F] 33 2 3;
    SymbolDef.mk [0xD83E; 0xDF20] 34 2 3;
    SymbolDef.mk [0xD83E; 0xDF21] 35 2 3;
    SymbolDef.mk [0xD83E; 0xDF22] 36 2 3;
    SymbolDef.mk [0xD83E; 0xDF23] 37 2 3;
    SymbolDef.mk [0xD83E; 0xDF24] 38 2 3;
    SymbolDef.mk [0xD83E; 0xDF25] 39 2 3;
    SymbolDef.mk [0xD83E; 0xDF26] 40 2 3;
    SymbolDef.mk [0xD83E; 0xDF27] 41 2 3;
    SymbolDef.mk [0x2590] 42 2 3;
    SymbolDef.mk [0xD83E; 0xDF28] 43 2 3;
    SymbolDef.mk [0xD83E; 0xDF29] 44 2 3;
    SymbolDef.mk [0xD83E; 0xDF2A] 45 2 3;
    SymbolDef.mk [0xD83E; 0xDF2B] 46 2 3;
    SymbolDef.mk [0xD83E; 0xDF2C] 47 2 3;
    SymbolDef.mk [0xD83E; 0xDF2D] 48 2 3;
    SymbolDef.mk [0xD83E; 0xDF2E] 49 2 3;
    SymbolDef.mk [0xD83E; 0xDF2F] 50 2 3;
    SymbolDef.mk [0xD83E; 0xDF30] 51 2 3;
    SymbolDef.mk [0xD83E; 0xDF31] 52 2 3;
    SymbolDef.mk [0xD83E; 0xDF32] 53 2 3;
    SymbolDef.mk [0xD83E; 0xDF33] 54 2 3;
    SymbolDef.mk [0xD83E; 0xDF34] 55 2 3;
    SymbolDef.mk [0xD83E; 0xDF35] 56 2 3;
    SymbolDef.mk [0xD83E; 0xDF36] 57 2 3;
    SymbolDef.mk [0xD83E; 0xDF37] 58 2 3;
    SymbolDef.mk [0xD83E; 0xDF38] 59 2 3;
    SymbolDef.mk [0xD83E; 0xDF39] 60 2 3;
    SymbolDef.mk [0xD83E; 0xDF3A] 61 2 3;
    SymbolDef.mk [0xD83E; 0xDF3B] 62 2 3;
    SymbolDef.mk [0x2588] 63 2 3 ].

Definition SYMBOL_SET_MAP (name : SymbolSet) : option (list SymbolDef) :=
  match name with
  | ASCII => Some ASCII_SYMBOLS
  | HALF => Some HALF_BLOCK_SYMBOLS
  | QUADRANT => Some QUADRANT_SYMBOLS
  | BRAILLE => Some BRAILLE_SYMBOLS
  | SEXTANT => Some SEXTANT_SYMBOLS
  end.

Definition getSymbolSet (name : SymbolSet) : list SymbolDef :=
  default HALF_BLOCK_SYMBOLS (SYMBOL_SET_MAP name).

Definition getSymbolDimensions (name : SymbolSet) : Z * Z :=
  match head (getSymbolSet name) with
  | Some first => (SymbolDef.width first, SymbolDef.height first)
  | None => (1, 2)
  end.

(* ================================================================= *)
(** ** mapper.ts *)

Definition getPixelSafe (pixels : PixelBuffer) (x y : Z) : Color :=
  match index pixels y with
  | Some row =>
      if (0 <=? x) && (x <? Z.of_nat (length row)) then default BLACK (index row x)
      else BLACK
  | None => BLACK
  end.

Definition BRAILLE_DOT_MAP : list (Z * Z * Z) :=
  [ (0, 0, BRAILLE_DOTS.DOT1);
    (0, 1, BRAILLE_DOTS.DOT2);
    (0, 2, BRAILLE_DOTS.DOT3);
    (0, 3, BRAILLE_DOTS.DOT7);
    (1, 0, BRAILLE_DOTS.DOT4);
    (1, 1, BRAILLE_DOTS.DOT5);
    (1, 2, BRAILLE_DOTS.DOT6);
    (1, 3, BRAILLE_DOTS.DOT8) ].

(** The value returned by both region mappers: [{ pattern, fg, bg }]. *)
Module Region.
Record t := mk { pattern : Z; fg : Color; bg : Color }.
End Region.
Notation Region := Region.t.

(** One pass of the inner loop body of [mapRegionToPattern]: the state is
    [(patternBits, fgColors, bgColors)]. *)
Definition scanPixel (pixels : PixelBuffer) (startX startY : Z) (threshold : float)
    (y : Z) (st : list bool * list Color * list Color) (x : Z)
    : list bool * list Color * list Color :=
  let '(patternBits, fgColors, bgColors) := st in
  let color := getPixelSafe pixels (startX + x) (startY + y) in
  let on := isPixelOn color threshold in
  if on then (patternBits ++ [on], fgColors ++ [color], bgColors)
  else (patternBits ++ [on], fgColors, bgColors ++ [color]).

Definition mapRegionToPattern (pixels : PixelBuffer) (startX startY width height : Z)
    (threshold : float) : Region :=
  let '(patternBits, fgColors, bgColors) :=
    foldl (fun st y => foldl (scanPixel pixels startX startY threshold y) st (seqZ 0 width))
          ([], [], []) (seqZ 0 height) in
  let bitPattern :=
    foldl (fun bitPattern i =>
             if default false (index patternBits i) then or32 bitPattern (shl32 1 i)
             else bitPattern)
          0 (seqZ 0 (Z.of_nat (length patternBits))) in
  Region.mk bitPattern (averageColors fgColors) (averageColors bgColors).

(** [countBits]: the loop [while (v) { count += v & 1; v >>= 1; }].  On a
    negative word the arithmetic shift never reaches zero and the loop does
    not end; [None] stands for that.  33 rounds are enough for every
    non-negative word (lemmas [countBitsLoop_enough], [countBitsLoop_negative]). *)
Fixpoint countBitsLoop (fuel : nat) (count v : Z) : option Z :=
  match fuel with
  | O => None
  | S fuel' =>
      if v =? 0 then Some count
      else countBitsLoop fuel' (count + and32 v 1) (sar32 v 1)
  end.

Definition countBits (n : Z) : option Z := countBitsLoop 33 0 n.

(** The second loop of [findBestSymbol]; [minDistance = None] is [Infinity]. *)
Definition closer (pattern : Z) (st : option (SymbolDef * option Z)) (symbol : SymbolDef)
    : option (SymbolDef * option Z) :=
  '(bestSymbol, minDistance) ← st;
  distance ← countBits (xor32 pattern (SymbolDef.pattern symbol));
  match minDistance with
  | Some m => if distance <? m then Some (symbol, Some distance) else Some (bestSymbol, minDistance)
  | None => Some (symbol, Some distance)
  end.

Definition findBestSymbol (pattern : Z) (symbols : list SymbolDef) : option SymbolDef :=
  match find (fun symbol => SymbolDef.pattern symbol =? pattern) symbols with
  | Some symbol => Some symbol
  | None =>
      let bestSymbol := default (SymbolDef.mk (js " ") 0 1 1) (head symbols) in
      fst <$> foldl (closer pattern) (Some (bestSymbol, None)) symbols
  end.

Definition mapBrailleRegion (pixels : PixelBuffer) (startX startY : Z) (threshold : float)
    : Region :=
  let '(pattern, fgColors, bgColors) :=
    foldl (fun '(pattern, fgColors, bgColors) '(dx, dy, bit) =>
             let color := getPixelSafe pixels (startX + dx) (startY + dy) in
             if isPixelOn color threshold
             then (or32 pattern bit, fgColors ++ [color], bgColors)
             else (pattern, fgColors, bgColors ++ [color]))
          (0, [], []) BRAILLE_DOT_MAP in
  Region.mk pattern (averageColors fgColors) (averageColors bgColors).

(** [Math.ceil(a / b)] for an integer [a] and a positive integer [b]. *)
Definition ceilDiv (a b : Z) : Z := - ((- a) / b).

Definition mapCell (pixels : PixelBuffer) (symbolSetName : SymbolSet)
    (symbols : list SymbolDef) (dims : Z * Z) (threshold : float) (cy cx : Z)
    : option Cell :=
  let startX := cx * fst dims in
  let startY := cy * snd dims in
  match symbolSetName with
  | BRAILLE =>
      let result := mapBrailleRegion pixels startX startY threshold in
      let char := getBrailleChar (Region.pattern result) in
      Some (Cell.mk char (Region.fg result) (Region.bg result))
  | _ =>
      let result := mapRegionToPattern pixels startX startY (fst dims) (snd dims) threshold in
      symbol ← findBestSymbol (Region.pattern result) symbols;
      Some (Cell.mk (SymbolDef.char symbol) (Region.fg result) (Region.bg result))
  end.

Definition mapPixelsToCells (pixels : PixelBuffer) (symbolSetName : SymbolSet)
    (threshold : float) : option Grid :=
  let symbols := getSymbolSet symbolSetName in
  let dims := getSymbolDimensions symbolSetName in
  match pixels with
  | [] => Some []
  | firstRow :: _ =>
      if (length firstRow =? 0)%nat then Some []
      else
        let pixelHeight := Z.of_nat (length pixels) in
        let pixelWidth := Z.of_nat (length firstRow) in
        let cellWidth := ceilDiv pixelWidth (fst dims) in
        let cellHeight := ceilDiv pixelHeight (snd dims) in
        mapM (fun cy =>
                mapM (mapCell pixels symbolSetName symbols dims threshold cy)
                     (seqZ 0 cellWidth))
             (seqZ 0 cellHeight)
  end.

(* ================================================================= *)
(** ** renderer.ts *)

(** The errors that reach a caller: the one [throw] of the sources,
    [Error(`Buffer dimensions must be positive: ${width}x${height}`)], and
    the [RangeError] (invalid array length) of the array constructor. *)
Inductive Error := InvalidDimensions (width height : float) | RangeError.

Inductive Result (A : Type) :=
| Ok (v : A)
| Throw (e : Error).
Arguments Ok {A} v.
Arguments Throw {A} e.

(** [Partial<RenderOptions>] and the object spread [{ ...base, ...options }].
    [None] is an absent key, which the spread leaves to [base]; a key that is
    present and holds [undefined] (the spread would store it) is not a value
    of this type. *)
Module PartialOptions.
Record t := mk {
  symbolSet : option SymbolSet;
  colorMode : option ColorMode;
  threshold : option float }.
End PartialOptions.
Notation PartialOptions := PartialOptions.t.

Definition mergeOptions (base : RenderOptions) (options : option PartialOptions)
    : RenderOptions :=
  match options with
  | None => base
  | Some o =>
      RenderOptions.mk
        (default (RenderOptions.symbolSet base) (PartialOptions.symbolSet o))
        (default (RenderOptions.colorMode base) (PartialOptions.colorMode o))
        (default (RenderOptions.threshold base) (PartialOptions.threshold o))
  end.

(** [!last || !colorsEqual(last, c)] *)
Definition changed (last : option Color) (c : Color) : bool :=
  match last with
  | None => true
  | Some l => negb (colorsEqual l c)
  end.

(** Body of the inner loop of [gridToString]; the state is
    [(line, lastFg, lastBg)]. *)
Definition emitCell (colorMode : ColorMode)
    (st : JsString * option Color * option Color) (cell : Cell)
    : JsString * option Color * option Color :=
  let '(line, lastFg, lastBg) := st in
  let '(line, lastFg, lastBg) :=
    match colorMode with
    | TRUECOLOR =>
        let '(line, lastFg) :=
          if changed lastFg (Cell.fg cell)
          then (line ++ fgTruecolor (Cell.fg cell), Some (Cell.fg cell))
          else (line, lastFg) in
        let '(line, lastBg) :=
          if changed lastBg (Cell.bg cell)
          then (line ++ bgTruecolor (Cell.bg cell), Some (Cell.bg cell))
          else (line, lastBg) in
        (line, lastFg, lastBg)
    | NONE => (line, lastFg, lastBg)
    end in
  (line ++ Cell.char cell, lastFg, lastBg).

(** Body of the outer loop: one row gives one line. *)
Definition rowLine (colorMode : ColorMode) (row : Row) : JsString :=
  let '(line, _, _) := foldl (emitCell colorMode) ([], None, None) row in
  match colorMode with
  | TRUECOLOR => line ++ resetColors
  | NONE => line
  end.

Definition gridToString (grid : Grid) (options : RenderOptions) : JsString :=
  if (length grid =? 0)%nat then []
  else
    let lines :=
      foldl (fun lines row => lines ++ [rowLine (RenderOptions.colorMode options) row])
            [] grid in
    join [10] lines.

(** [None] stands for a call that does not return (see [countBits]). *)
Definition render (self : RenderOptions) (pixels : PixelBuffer)
    (options : option PartialOptions) : option JsString :=
  let opts := mergeOptions self options in
  grid ← mapPixelsToCells pixels (RenderOptions.symbolSet opts) (RenderOptions.threshold opts);
  Some (gridToString grid opts).

(** The loop of [Array.from] over the indices: [mapFn] is called once per
    element, and its failure ends the construction. *)
Fixpoint fillArray {A : Type} (n : nat) (mapFn : unit -> Result A) : Result (list A) :=
  match n with
  | O => Ok []
  | S n' =>
      match mapFn tt with
      | Throw e => Throw e
      | Ok v =>
          match fillArray n' mapFn with
          | Throw e => Throw e
          | Ok vs => Ok (v :: vs)
          end
      end
  end.

(** [Array.from({ length }, mapFn)]: the length is read through [ToLength],
    and the array constructor refuses a length above 2^32 - 1 before any
    element is made. *)
Definition ArrayFrom {A : Type} (length : float) (mapFn : unit -> Result A)
    : Result (list A) :=
  let len := ToLength length in
  if 2 ^ 32 - 1 <? len then Throw RangeError
  else fillArray (Z.to_nat len) mapFn.

(** Buffers by value: every pixel holds the fill colour.  The dimensions are
    numbers as the caller passes them; [width <= 0] is false of NaN.  The
    object identities of the pixels are the subject of [Refs.createBuffer]
    below. *)
Definition createBuffer (width height : float) (fillColor : option Color)
    : Result PixelBuffer :=
  if PrimFloat.leb width 0 || PrimFloat.leb height 0
  then Throw (InvalidDimensions width height)
  else
    let color := default BLACK fillColor in
    ArrayFrom height (fun _ => ArrayFrom width (fun _ => Ok color)).

Definition setPixel (buffer : PixelBuffer) (x y : Z) (color : Color) : PixelBuffer :=
  if (0 <=? y) && (y <? Z.of_nat (length buffer)) then
    match buffer !! Z.to_nat y with
    | Some row =>
        if (0 <=? x) && (x <? Z.of_nat (length row))
        then <[Z.to_nat y := <[Z.to_nat x := color]> row]> buffer
        else buffer
    | None => buffer
    end
  else buffer.

Definition getPixel (buffer : PixelBuffer) (x y : Z) : option Color :=
  if (0 <=? y) && (y <? Z.of_nat (length buffer)) then
    match buffer !! Z.to_nat y with
    | Some row =>
        if (0 <=? x) && (x <? Z.of_nat (length row)) then row !! Z.to_nat x else None
    | None => None
    end
  else None.

Definition drawThickPixelPerpendicular (buffer : PixelBuffer) (x y : Z) (color : Color)
    (thickness : Z) (isSteep : bool) : PixelBuffer :=
  if isSteep then
    let start := x - thickness / 2 in
    foldl (fun buffer dx => setPixel buffer (start + dx) y color) buffer (seqZ 0 thickness)
  else
    let start := y - thickness / 2 in
    foldl (fun buffer dy => setPixel buffer x (start + dy) color) buffer (seqZ 0 thickness).

(** [!pattern || pattern[step % pattern.length] === 1] *)
Definition shouldDraw (style : option LineStyle) (step : Z) : bool :=
  match style ≫= LineStyle.pattern with
  | None => true
  | Some pattern =>
      bool_decide (index pattern (step mod Z.of_nat (length pattern)) = Some 1)
  end.

(** The colour used at a step: the gradient when both ends are given. *)
Definition stepColor (style : option LineStyle) (color : Color) (lineLength : float)
    (step : Z) : Color :=
  match style ≫= LineStyle.startColor, style ≫= LineStyle.endColor with
  | Some startColor, Some endColor =>
      let t := if PrimFloat.ltb 0 lineLength then (Z2f step / lineLength)%float
               else 0%float in
      interpolateColor startColor endColor t
  | _, _ => color
  end.

(** What the loop of [drawLine] does inside [if (shouldDraw) { ... }]. *)
Definition paintStep (style : option LineStyle) (color : Color) (lineLength : float)
    (isSteep : bool) (buffer : PixelBuffer) (x y step : Z) : PixelBuffer :=
  let drawColor := stepColor style color lineLength step in
  let thickness := default 1 (style ≫= LineStyle.thickness) in
  if 1 <? thickness
  then drawThickPixelPerpendicular buffer x y drawColor thickness isSteep
  else setPixel buffer x y drawColor.

(** First half of the body of the [while (true)] loop of [drawLine]: what is
    drawn at the current position. *)
Definition drawStep (style : option LineStyle) (color : Color) (lineLength : float)
    (isSteep : bool) (buffer : PixelBuffer) (x y step : Z) : PixelBuffer :=
  if shouldDraw style step
  then paintStep style color lineLength isSteep buffer x y step
  else buffer.

(** The [while (true)] loop of [drawLine], with the number of rounds bounded
    by [fuel]; [None] when the bound is reached before the [break].  The loop
    is written over any state [S] updated by [body] at every position, so that
    the same walk can also record the positions it visits. *)
Fixpoint bresenham {S : Type} (fuel : nat) (x2 y2 dx dy sx sy : Z)
    (body : S -> Z -> Z -> Z -> S) (s : S) (x y err step : Z) : option S :=
  match fuel with
  | O => None
  | S fuel' =>
      let s := body s x y step in
      if (x =? x2) && (y =? y2) then Some s
      else
        let e2 := 2 * err in
        let '(err, x) := if - dy <? e2 then (err - dy, x + sx) else (err, x) in
        let '(err, y) := if e2 <? dx then (err + dx, y + sy) else (err, y) in
        bresenham fuel' x2 y2 dx dy sx sy body s x y err (step + 1)
  end.

(** The same loop on the numbers of the source, binary64: [x += sx],
    [err -= dy], [2 * err] and [step++] are rounded, and the tests are the
    comparisons of numbers.  Below 2^53 nothing is rounded and this loop
    walks as [bresenham] does (lemma [bresenham64_exact]); from 2^53 on
    [x += 1] gives [x] back (lemma [bresenham64_stuck]). *)
Fixpoint bresenham64 {S : Type} (fuel : nat) (x2 y2 dx dy sx sy : float)
    (body : S -> float -> float -> float -> S) (s : S) (x y err step : float) : option S :=
  match fuel with
  | O => None
  | S fuel' =>
      let s := body s x y step in
      if PrimFloat.eqb x x2 && PrimFloat.eqb y y2 then Some s
      else
        let e2 := (2 * err)%float in
        let '(err, x) :=
          if PrimFloat.ltb (- dy) e2 then ((err - dy)%float, (x + sx)%float) else (err, x) in
        let '(err, y) :=
          if PrimFloat.ltb e2 dx then ((err + dx)%float, (y + sy)%float) else (err, y) in
        bresenham64 fuel' x2 y2 dx dy sx sy body s x y err (step + 1)%float
  end.

(** [drawLine] on binary64 endpoints, for any loop body in place of the
    drawing: the guard, the set-up and the loop. *)
Definition lineLoop64 {S : Type} (fuel : nat) (x1 y1 x2 y2 : float)
    (body : S -> float -> float -> float -> S) (s : S) : option S :=
  if negb (isFinite x1) || negb (isFinite y1) || negb (isFinite x2) || negb (isFinite y2)
  then Some s
  else
    let dx := abs (x2 - x1) in
    let dy := abs (y2 - y1) in
    let sx := if PrimFloat.ltb x1 x2 then 1%float else (-1)%float in
    let sy := if PrimFloat.ltb y1 y2 then 1%float else (-1)%float in
    bresenham64 fuel x2 y2 dx dy sx sy body s x1 y1 (dx - dy)%float 0%float.

(** A coordinate argument of [drawLine]: an integer, or one of NaN and the
    infinities, which the guard at the top of the function turns away. *)
Inductive Coord := Finite (z : Z) | NonFinite.

Definition drawLine (fuel : nat) (buffer : PixelBuffer) (x1 y1 x2 y2 : Coord)
    (color : Color) (style : option LineStyle) : option PixelBuffer :=
  match x1, y1, x2, y2 with
  | Finite x1, Finite y1, Finite x2, Finite y2 =>
      let dx := Z.abs (x2 - x1) in
      let dy := Z.abs (y2 - y1) in
      let sx := if x1 <? x2 then 1 else -1 in
      let sy := if y1 <? y2 then 1 else -1 in
      let err := dx - dy in
      let lineLength := PrimFloat.sqrt (Z2f ((x2 - x1) ^ 2 + (y2 - y1) ^ 2)) in
      let isSteep := dx <? dy in
      bresenham fuel x2 y2 dx dy sx sy (drawStep style color lineLength isSteep)
                buffer x1 y1 err 0
  | _, _, _, _ => Some buffer
  end.

Definition drawRect (buffer : PixelBuffer) (x y width height : Z) (color : Color)
    (fill : bool) : PixelBuffer :=
  if (width <=? 0) || (height <=? 0) then buffer
  else if fill then
    foldl (fun buffer dy =>
             foldl (fun buffer dx => setPixel buffer (x + dx) (y + dy) color)
                   buffer (seqZ 0 width))
          buffer (seqZ 0 height)
  else
    let buffer :=
      foldl (fun buffer dx =>
               setPixel (setPixel buffer (x + dx) y color) (x + dx) (y + height - 1) color)
            buffer (seqZ 0 width) in
    foldl (fun buffer dy =>
             setPixel (setPixel buffer x (y + dy) color) (x + width - 1) (y + dy) color)
          buffer (seqZ 0 height).

(** The [while (x >= y)] loop of [drawCircle], with the number of rounds
    bounded by [fuel]. *)
Fixpoint drawCircleLoop (fuel : nat) (cx cy : Z) (color : Color) (fill : bool)
    (buffer : PixelBuffer) (x y err : Z) : option PixelBuffer :=
  match fuel with
  | O => None
  | S fuel' =>
      if y <=? x then
        let buffer :=
          if fill then
            let buffer :=
              foldl (fun buffer dx =>
                       setPixel (setPixel buffer (cx + dx) (cy + y) color)
                                (cx + dx) (cy - y) color)
                    buffer (seqZ (- x) (2 * x + 1)) in
            foldl (fun buffer dx =>
                     setPixel (setPixel buffer (cx + dx) (cy + x) color)
                              (cx + dx) (cy - x) color)
                  buffer (seqZ (- y) (2 * y + 1))
          else
            foldl (fun buffer '(px, py) => setPixel buffer px py color) buffer
                  [ (cx + x, cy + y); (cx + y, cy + x); (cx - y, cy + x); (cx - x, cy + y);
                    (cx - x, cy - y); (cx - y, cy - x); (cx + y, cy - x); (cx + x, cy - y) ] in
        let '(y, err) := if err <=? 0 then (y + 1, err + (2 * (y + 1) + 1)) else (y, err) in
        let '(x, err) := if 0 <? err then (x - 1, err - (2 * (x - 1) + 1)) else (x, err) in
        drawCircleLoop fuel' cx cy color fill buffer x y err
      else Some buffer
  end.

Definition drawCircle (fuel : nat) (buffer : PixelBuffer) (cx cy radius : Z)
    (color : Color) (fill : bool) : option PixelBuffer :=
  if radius <? 0 then Some buffer
  else drawCircleLoop fuel cx cy color fill buffer radius 0 0.

Definition clear (buffer : PixelBuffer) (color : Color) : PixelBuffer :=
  map (map (fun _ => color)) buffer.

Definition renderLine (fuel : nat) (self : RenderOptions) (width height : float)
    (x1 y1 x2 y2 : Coord) (color : Color) (style : option LineStyle)
    (options : option PartialOptions) : Result (option JsString) :=
  match createBuffer width height None with
  | Throw e => Throw e
  | Ok buffer =>
      Ok (drawn ← drawLine fuel buffer x1 y1 x2 y2 color style; render self drawn options)
  end.

(** *** Object identities in [createBuffer]

    [createBuffer] fills the buffer with [{ ...color }], a new object per
    pixel.  To speak about that, colours live in a heap of objects and a
    buffer is a grid of references. *)
Module Refs.

Record Heap := mkHeap { next : nat; obj : nat -> Color }.

(** A new object holding [c]; its reference is the next free one. *)
Definition alloc (c : Color) (h : Heap) : nat * Heap :=
  (next h, mkHeap (S (next h)) (fun l => if Nat.eqb l (next h) then c else obj h l)).

(** Assignment to the fields of the object behind [l]. *)
Definition store (l : nat) (c : Color) (h : Heap) : Heap :=
  mkHeap (next h) (fun l' => if Nat.eqb l' l then c else obj h l').

(** [Array.from({ length: width }, () => ({ ...color }))] *)
Fixpoint allocRow (width : nat) (color : nat) (h : Heap) : list nat * Heap :=
  match width with
  | O => ([], h)
  | S w =>
      let '(l, h1) := alloc (obj h color) h in
      let '(ls, h2) := allocRow w color h1 in
      (l :: ls, h2)
  end.

Fixpoint allocRows (height width : nat) (color : nat) (h : Heap)
    : list (list nat) * Heap :=
  match height with
  | O => ([], h)
  | S n =>
      let '(row, h1) := allocRow width color h in
      let '(rows, h2) := allocRows n width color h1 in
      (row :: rows, h2)
  end.

(** The two [Array.from] of [createBuffer] with their failures flattened:
    the outer length is refused first, the inner one when the first row is
    made. *)
Definition createBuffer (width height : float) (fillColor : option nat) (h : Heap)
    : Result (list (list nat) * Heap) :=
  if PrimFloat.leb width 0 || PrimFloat.leb height 0
  then Throw (InvalidDimensions width height)
  else
    let '(color, h1) :=
      match fillColor with
      | Some l => (l, h)
      | None => alloc BLACK h
      end in
    if 2 ^ 32 - 1 <? ToLength height then Throw RangeError
    else if (0 <? ToLength height) && (2 ^ 32 - 1 <? ToLength width) then Throw RangeError
    else Ok (allocRows (Z.to_nat (ToLength height)) (Z.to_nat (ToLength width)) color h1).


End Refs.

(* ================================================================= *)
(** * Vocabulary of the properties *)

(** The catalog search on the braille table finds the glyph of the closed form. *)
Definition brailleLookupAgrees (p : Z) : bool :=
  match findBestSymbol p BRAILLE_SYMBOLS with
  | Some s => bool_decide (SymbolDef.char s = getBrailleChar p)
  | None => false
  end.

(** The data model keeps every channel an integer of [0,255]. *)
Definition isByte (x : float) : Prop := exists n : Z, 0 <= n <= 255 /\ x = Z2f n.

Definition validColor (c : Color) : Prop :=
  isByte (Color.r c) /\ isByte (Color.g c) /\ isByte (Color.b c)
  /\ match Color.a c with Some al => isByte al | None => True end.

(** The result alpha [fgA + bgA * (1 - fgA)] of [blendColors] for a foreground
    alpha of 0 and a background alpha of [y]. *)
Definition clearOutA (y : float) : float := (0 / 255 + y / 255 * (1 - 0 / 255))%float.





(** A write puts [c] where there is a pixel and nothing where there is none. *)
Definition overwrite (c : Color) (old : option Color) : option Color :=
  match old with
  | Some _ => Some c
  | None => None
  end.

(** [painted c cover b b']: [b'] is [b] with the pixels selected by [cover]
    set to [c] (those of them that lie inside the buffer). *)
Definition painted (c : Color) (cover : Z -> Z -> bool) (b b' : PixelBuffer) : Prop :=
  forall px py,
    getPixel b' px py = if cover px py then overwrite c (getPixel b px py) else getPixel b px py.


Definition lineLength (x1 y1 x2 y2 : Z) : float :=
  PrimFloat.sqrt (Z2f ((x2 - x1) ^ 2 + (y2 - y1) ^ 2)).






(** The colours of a region in scan order: rows from top to bottom, each from
    left to right; a position outside the buffer counts as opaque black. *)
Definition regionPixels (pixels : PixelBuffer) (startX startY width height : Z)
    : list Color :=
  concat (map (fun y =>
                 map (fun x => default BLACK (getPixel pixels (startX + x) (startY + y)))
                     (seqZ 0 width))
              (seqZ 0 height)).

(** The second loop of [mapRegionToPattern], over the first [n] bits. *)
Definition packBits (bits : list bool) (n : Z) : Z :=
  foldl (fun bitPattern i =>
           if default false (index bits i) then or32 bitPattern (shl32 1 i) else bitPattern)
        0 (seqZ 0 n).

(** The buffer extended to [W'] columns and [H'] rows with opaque black. *)
Definition padBuffer (pixels : PixelBuffer) (W' H' : Z) : PixelBuffer :=
  map (fun row => row ++ replicate (Z.to_nat W' - length row) BLACK) pixels
  ++ replicate (Z.to_nat H' - length pixels) (replicate (Z.to_nat W') BLACK).

Definition searchSucceeds (symbols : list SymbolDef) (p : Z) : bool :=
  match findBestSymbol p symbols with
  | Some _ => true
  | None => false
  end.

(** What one cell contributes to a line: the escape sequences emitted before
    it, if any, and its glyph. *)
Module Segment.
Record t := mk { fgEscape : option Color; bgEscape : option Color; glyph : JsString }.
End Segment.
Notation Segment := Segment.t.

Definition segmentString (s : Segment) : JsString :=
  from_option fgTruecolor [] (Segment.fgEscape s)
  ++ from_option bgTruecolor [] (Segment.bgEscape s)
  ++ Segment.glyph s.

(** The colour of the last escape sequence among [escapes], if there is one. *)
Definition lastEmitted (escapes : list (option Color)) : option Color :=
  last (omap id escapes).

(** [segs] serializes [row] with an escape sequence exactly before the cells
    whose colour differs from the last one emitted in the row so far. *)
Definition followsRow (row : Row) (segs : list Segment) : Prop :=
  length segs = length row
  /\ forall i cell seg,
       row !! i = Some cell -> segs !! i = Some seg ->
       Segment.glyph seg = Cell.char cell
       /\ Segment.fgEscape seg
          = (if changed (lastEmitted (Segment.fgEscape <$> take i segs)) (Cell.fg cell)
             then Some (Cell.fg cell) else None)
       /\ Segment.bgEscape seg
          = (if changed (lastEmitted (Segment.bgEscape <$> take i segs)) (Cell.bg cell)
             then Some (Cell.bg cell) else None).

(** The segments of a row, given the colours emitted last before it. *)
Fixpoint segmentsFrom (lastFg lastBg : option Color) (row : Row) : list Segment :=
  match row with
  | [] => []
  | cell :: rest =>
      let fgE := if changed lastFg (Cell.fg cell) then Some (Cell.fg cell) else None in
      let bgE := if changed lastBg (Cell.bg cell) then Some (Cell.bg cell) else None in
      Segment.mk fgE bgE (Cell.char cell)
      :: segmentsFrom (if changed lastFg (Cell.fg cell) then Some (Cell.fg cell) else lastFg)
                      (if changed lastBg (Cell.bg cell) then Some (Cell.bg cell) else lastBg)
                      rest
  end.


(** *** Integers as binary64 numbers *)

(** The canonical binary64 form of a positive integer [c] below 2^53 with
    sign [s]: the mantissa is [c] shifted up to 53 bits. *)
Definition SFcanon (s : bool) (c : positive) : spec_float :=
  S754_finite s (Z.to_pos (Z.pos c * 2 ^ (53 - Z.pos (digits2_pos c))))
              (Z.pos (digits2_pos c) - 53).

Definition SFint (z : Z) : spec_float :=
  match z with
  | Z0 => S754_zero false
  | Z.pos p => SFcanon false p
  | Z.neg p => SFcanon true p
  end.

(** The binary64 loop run for its positions only. *)
Definition record64 (pts : list (float * float * float)) (x y step : float)
    : list (float * float * float) :=
  pts ++ [(x, y, step)].

Definition lineWalk64 (fuel : nat) (x1 y1 x2 y2 : float)
    : option (list (float * float * float)) :=
  lineLoop64 fuel x1 y1 x2 y2 record64 [].





(** ** Vocabulary of the colour, catalog and braille properties *)

(** A colour with its alpha written out ([a ?? 255]). *)
Definition withAlpha (c : Color) : Color :=
  Color.mk (Color.r c) (Color.g c) (Color.b c) (Some (alphaOr255 c)).

(** The integer held by a number (0 for NaN, the infinities and the zeros). *)
Definition intValue (x : float) : Z :=
  match Prim2SF x with
  | S754_finite s m e =>
      let v := if s then Z.neg m else Z.pos m in
      if 0 <=? e then v * 2 ^ e else v / 2 ^ (- e)
  | _ => 0
  end.

(** [s / n] rounded to the nearest integer, halves up. *)
Definition halfUpDiv (s n : Z) : Z := (2 * s + n) / (2 * n).

Definition channelSum (channel : Color -> float) (colors : list Color) : Z :=
  foldr (fun c s => intValue (channel c) + s) 0 colors.

Definition meanChannel (channel : Color -> float) (colors : list Color) : float :=
  Z2f (halfUpDiv (channelSum channel colors) (Z.of_nat (length colors))).

(** Two characters that are hex digits are read by [parseInt16] as the number
    they write. *)
Definition twoDigitsOk (c1 c2 : Z) : bool :=
  match hexDigit c1, hexDigit c2 with
  | Some v1, Some v2 => PrimFloat.Leibniz.eqb (parseInt16 [c1; c2]) (Z2f (16 * v1 + v2))
  | _, _ => true
  end.

(** The number of set bits among the bits [0 .. k-1] of a word. *)
Fixpoint bitsSet (k : nat) (n : Z) : Z :=
  match k with
  | O => 0
  | S k' => bitsSet k' n + Z.b2z (Z.testbit n (Z.of_nat k'))
  end.

(** The set bits of a non-negative 32-bit word: bit 31 is its sign. *)
Notation hammingWeight := (bitsSet 31).

(** The Hamming distance of two non-negative words, as [findBestSymbol]
    measures it. *)
Notation hamming p q := (bitsSet 31 (xor32 p q)).

(** What the search of [findBestSymbol] holds after the entries [pre]: nothing
    before the first entry, afterwards the first entry of [pre] at the least
    distance, with that distance. *)
Definition nearestInv (p : Z) (pre : list SymbolDef) (st : SymbolDef * option Z) : Prop :=
  match st.2 with
  | None => pre = []
  | Some d =>
      exists i : nat,
        pre !! i = Some st.1 /\ d = hamming p (SymbolDef.pattern st.1)
        /\ (forall (j : nat) s, pre !! j = Some s -> d <= hamming p (SymbolDef.pattern s))
        /\ (forall (j : nat) s, (j < i)%nat -> pre !! j = Some s ->
                                d < hamming p (SymbolDef.pattern s))
  end.

(** The place of braille dot [i + 1] in the 2 x 4 cell, by the Unicode
    numbering: dots 1-3 down the left column, 4-6 down the right one, 7 and 8
    in the bottom row. *)
Definition brailleDotAt : list (Z * Z) :=
  [ (0, 0); (0, 1); (0, 2); (1, 0); (1, 1); (1, 2); (0, 3); (1, 3) ].

(** The pixels of a braille region in the order the code reads them. *)
Definition braillePixels (pixels : PixelBuffer) (startX startY : Z) : list Color :=
  map (fun '(dx, dy, _) => getPixelSafe pixels (startX + dx) (startY + dy)) BRAILLE_DOT_MAP.

(** The pixels of a rectangle and of its outline. *)
Definition rectCover (x y width height : Z) (px py : Z) : bool :=
  (x <=? px) && (px <? x + width) && (y <=? py) && (py <? y + height).

Definition outlineCover (x y width height : Z) (px py : Z) : bool :=
  rectCover x y width height px py
  && ((px =? x) || (px =? x + width - 1) || (py =? y) || (py =? y + height - 1)).
(* ================================================================= *)
(** * Properties *)

(** ** Checking a decidable property on a range by evaluation *)

Lemma forallb_seqZ (f : Z -> bool) (m n : Z) :
  forallb f (seqZ m n) = true -> forall p, m <= p < m + n -> f p = true.
Proof.
  intros Hall p Hp.
  rewrite forallb_forall in Hall.
  apply Hall, list_elem_of_In, elem_of_seqZ. lia.
Qed.

(** ** Symbol catalog *)

Lemma brailleLookupAgrees_all : forallb brailleLookupAgrees (seqZ 0 256) = true.
Proof. vm_compute. reflexivity. Qed.

(** The pattern built by [mapBrailleRegion] is an 8-bit value. *)
Lemma mapBrailleRegion_pattern_byte pixels startX startY threshold :
  0 <= Region.pattern (mapBrailleRegion pixels startX startY threshold) <= 255.
Proof.
  unfold mapBrailleRegion, BRAILLE_DOT_MAP. cbn [foldl].
  repeat (destruct (isPixelOn _ _)); vm_compute; split; discriminate.
Qed.

(** The fast path of [mapCell] for braille gives the glyph the catalog search
    would find for the pattern of the region. *)
Lemma braille_fast_path_agrees_with_search pixels startX startY threshold :
  exists s,
    findBestSymbol (Region.pattern (mapBrailleRegion pixels startX startY threshold))
                   (getSymbolSet BRAILLE) = Some s
    /\ SymbolDef.char s
       = getBrailleChar (Region.pattern (mapBrailleRegion pixels startX startY threshold)).
Proof.
  pose proof (mapBrailleRegion_pattern_byte pixels startX startY threshold) as Hp.
  pose proof (forallb_seqZ _ _ _ brailleLookupAgrees_all
                (Region.pattern (mapBrailleRegion pixels startX startY threshold))
                ltac:(lia)) as H.
  unfold brailleLookupAgrees in H. change (getSymbolSet BRAILLE) with BRAILLE_SYMBOLS.
  destruct (findBestSymbol _ BRAILLE_SYMBOLS) as [s|]; [|discriminate].
  exists s. split; [reflexivity|]. by apply bool_decide_eq_true in H.
Qed.

(** C1. For every 8-bit pattern [p], the catalog search on the braille table
    finds a symbol, and its glyph is the one the closed form
    [String.fromCodePoint(0x2800 + p)] of [getBrailleChar] gives; hence for
    every region the fast path of the braille mapper and the catalog search
    give the same glyph. *)
Theorem findBestSymbol_braille_closed_form (p : Z) :
  0 <= p <= 255 ->
  (exists s, findBestSymbol p BRAILLE_SYMBOLS = Some s
             /\ SymbolDef.char s = getBrailleChar p
             /\ getBrailleChar p = fromCodePoint (0x2800 + p))
  /\ (forall pixels startX startY threshold,
        exists s,
          findBestSymbol (Region.pattern (mapBrailleRegion pixels startX startY threshold))
                         (getSymbolSet BRAILLE) = Some s
          /\ SymbolDef.char s
             = getBrailleChar
                 (Region.pattern (mapBrailleRegion pixels startX startY threshold))).
Proof.
  intros Hp. split; [|apply braille_fast_path_agrees_with_search].
  pose proof (forallb_seqZ _ _ _ brailleLookupAgrees_all p ltac:(lia)) as H.
  unfold brailleLookupAgrees in H.
  destruct (findBestSymbol p BRAILLE_SYMBOLS) as [s|]; [|discriminate].
  exists s. split; [reflexivity|]. split.
  - by apply bool_decide_eq_true in H.
  - unfold getBrailleChar, BRAILLE_BASE, and32.
    replace (toInt32 p) with p by (unfold toInt32; rewrite Z.mod_small; lia).
    change (toInt32 255) with (Z.ones 8).
    rewrite Z.land_ones by lia. rewrite Z.mod_small by (simpl; lia). reflexivity.
Qed.

Lemma findBestSymbol_braille_closed_form_witness :
  (exists s, findBestSymbol 137 BRAILLE_SYMBOLS = Some s
             /\ SymbolDef.char s = getBrailleChar 137
             /\ getBrailleChar 137 = fromCodePoint (0x2800 + 137))
  /\ (forall pixels startX startY threshold,
        exists s,
          findBestSymbol (Region.pattern (mapBrailleRegion pixels startX startY threshold))
                         (getSymbolSet BRAILLE) = Some s
          /\ SymbolDef.char s
             = getBrailleChar
                 (Region.pattern (mapBrailleRegion pixels startX startY threshold))).
Proof. apply (findBestSymbol_braille_closed_form 137). lia. Defined.

(** ** [countBits]: the bound of 33 rounds loses nothing *)

Lemma toInt32_small z : - 2 ^ 31 <= z < 2 ^ 31 -> toInt32 z = z.
Proof. intros Hz. unfold toInt32. rewrite Z.mod_small; lia. Qed.

(** On a negative word the loop never ends, whatever the number of rounds. *)
Lemma countBitsLoop_negative (fuel : nat) (count v : Z) :
  - 2 ^ 31 <= v < 0 -> countBitsLoop fuel count v = None.
Proof.
  revert count v. induction fuel as [|fuel IH]; intros count v Hv; [reflexivity|].
  cbn [countBitsLoop].
  replace (v =? 0) with false by (symmetry; apply Z.eqb_neq; lia).
  apply IH. unfold sar32. rewrite toInt32_small by lia.
  change (1 mod 32) with 1. rewrite Z.shiftr_div_pow2 by lia.
  change (2 ^ 1) with 2.
  pose proof (Z.div_mod v 2 ltac:(lia)). pose proof (Z.mod_pos_bound v 2 ltac:(lia)). lia.
Qed.

(** On a non-negative word the loop ends within 32 rounds, and more rounds
    give the same count. *)
Lemma countBitsLoop_enough (k : nat) (count v : Z) :
  (k <= 31)%nat -> 0 <= v < 2 ^ Z.of_nat k ->
  exists n, forall fuel, (k < fuel)%nat -> countBitsLoop fuel count v = Some n.
Proof.
  revert count v. induction k as [|k IH]; intros count v Hk Hv.
  - exists count. intros [|fuel] Hfuel; [lia|]. cbn [countBitsLoop].
    by replace (v =? 0) with true by (symmetry; apply Z.eqb_eq; cbn in Hv; lia).
  - destruct (Z.eq_dec v 0) as [->|Hnz].
    + exists count. by intros [|fuel] Hfuel; [lia|].
    + destruct (IH (count + and32 v 1) (sar32 v 1)) as [n Hn]; [lia| |].
      * unfold sar32.
        assert (2 ^ Z.of_nat (S k) <= 2 ^ 31) by (apply Z.pow_le_mono_r; lia).
        rewrite toInt32_small by lia.
        change (1 mod 32) with 1. rewrite Z.shiftr_div_pow2 by lia. change (2 ^ 1) with 2.
        replace (2 ^ Z.of_nat (S k)) with (2 * 2 ^ Z.of_nat k) in Hv
          by (rewrite Nat2Z.inj_succ, Z.pow_succ_r; lia).
        pose proof (Z.div_mod v 2 ltac:(lia)).
        pose proof (Z.mod_pos_bound v 2 ltac:(lia)). lia.
      * exists n. intros [|fuel] Hfuel; [lia|]. cbn [countBitsLoop].
        replace (v =? 0) with false by (symmetry; apply Z.eqb_neq; lia).
        apply Hn. lia.
Qed.


(** ** Colour model *)

Lemma isByte_alphaOr255 c : validColor c -> isByte (alphaOr255 c).
Proof.
  intros (_ & _ & _ & Ha). unfold alphaOr255.
  destruct (Color.a c); [exact Ha|]. exists 255. split; [lia|reflexivity].
Qed.

(** A boolean property checked on the 256 byte values holds of every byte. *)
Lemma byte_forall (P : float -> bool) :
  forallb (fun n => P (Z2f n)) (seqZ 0 256) = true ->
  forall x, isByte x -> P x = true.
Proof.
  intros Hall x (n & Hn & ->).
  apply (forallb_seqZ _ _ _ Hall). lia.
Qed.

Lemma byte_forall2 (P : float -> float -> bool) :
  forallb (fun n => forallb (fun m => P (Z2f n) (Z2f m)) (seqZ 0 256)) (seqZ 0 256) = true ->
  forall x y, isByte x -> isByte y -> P x y = true.
Proof.
  intros Hall x y Hx Hy.
  pose proof (byte_forall (fun x => forallb (fun m => P x (Z2f m)) (seqZ 0 256)) Hall x Hx) as H.
  exact (byte_forall (P x) H y Hy).
Qed.

Local Notation feq := PrimFloat.Leibniz.eqb.

Section Blend.
Local Open Scope float_scope.

(** Opaque foreground: the background term vanishes and the result alpha is 1. *)
Lemma blend_opaque_bg_term x y :
  isByte x -> isByte y -> x * (y / 255) * (1 - 255 / 255) = 0.
Proof.
  intros Hx Hy. apply Leibniz.eqb_spec.
  revert x y Hx Hy. apply byte_forall2. vm_compute. reflexivity.
Qed.

Lemma blend_opaque_outA y :
  isByte y -> 255 / 255 + y / 255 * (1 - 255 / 255) = 1.
Proof.
  intros Hy. apply Leibniz.eqb_spec.
  revert y Hy. apply byte_forall. vm_compute. reflexivity.
Qed.

Lemma blend_opaque_channel x :
  isByte x -> clampByte ((x * (255 / 255) + 0) / 1) = x.
Proof.
  intros Hx. apply Leibniz.eqb_spec.
  revert x Hx. apply byte_forall. vm_compute. reflexivity.
Qed.

(** Transparent foreground: the foreground term vanishes. *)
Lemma blend_clear_fg_term x : isByte x -> x * (0 / 255) = 0.
Proof.
  intros Hx. apply Leibniz.eqb_spec.
  revert x Hx. apply byte_forall. vm_compute. reflexivity.
Qed.

Lemma blend_clear_outA_zero y :
  isByte y -> PrimFloat.eqb (clearOutA y) 0 = PrimFloat.eqb y 0.
Proof.
  intros Hy.
  enough (Bool.eqb (PrimFloat.eqb (clearOutA y) 0) (PrimFloat.eqb y 0) = true) as H
    by (by apply Bool.eqb_prop in H).
  revert y Hy. apply byte_forall. vm_compute. reflexivity.
Qed.

Lemma blend_clear_channel x y :
  isByte x -> isByte y -> PrimFloat.eqb y 0 = false ->
  clampByte ((0 + x * (y / 255) * (1 - 0 / 255)) / clearOutA y) = x.
Proof.
  intros Hx Hy Hnz. apply Leibniz.eqb_spec.
  enough (PrimFloat.eqb y 0
          || feq (clampByte ((0 + x * (y / 255) * (1 - 0 / 255)) / clearOutA y)) x = true) as H
    by (rewrite Hnz in H; exact H).
  clear Hnz. revert x y Hx Hy.
  apply (byte_forall2 (fun x y => PrimFloat.eqb y 0
          || feq (clampByte ((0 + x * (y / 255) * (1 - 0 / 255)) / clearOutA y)) x)).
  vm_compute. reflexivity.
Qed.

Lemma blend_clear_alpha y :
  isByte y -> clampByte (clearOutA y * 255) = y.
Proof.
  intros Hy. apply Leibniz.eqb_spec.
  revert y Hy. apply byte_forall. vm_compute. reflexivity.
Qed.

Lemma isByte_eqb_zero y : isByte y -> PrimFloat.eqb y 0 = true -> y = 0.
Proof.
  intros Hy Hz. apply Leibniz.eqb_spec.
  enough (implb (PrimFloat.eqb y 0) (feq y 0) = true) as H by (rewrite Hz in H; exact H).
  clear Hz. revert y Hy. apply byte_forall. vm_compute. reflexivity.
Qed.

End Blend.

(** C9 (amended). For colours with byte channels: when the foreground alpha
    is 255 or absent the blend has the foreground's r, g and b; when the
    foreground alpha is 0 the blend is the background (its alpha written out,
    255 when absent) provided the background alpha is not 0, and it is fully
    transparent black when the background alpha is 0. *)
Theorem blendColors_opaque_or_clear_foreground (fg bg : Color) :
  validColor fg -> validColor bg ->
  (alphaOr255 fg = 255%float ->
     Color.r (blendColors fg bg) = Color.r fg
     /\ Color.g (blendColors fg bg) = Color.g fg
     /\ Color.b (blendColors fg bg) = Color.b fg)
  /\ (Color.a fg = Some 0%float ->
        (PrimFloat.eqb (alphaOr255 bg) 0 = false ->
           blendColors fg bg
           = Color.mk (Color.r bg) (Color.g bg) (Color.b bg) (Some (alphaOr255 bg)))
        /\ (PrimFloat.eqb (alphaOr255 bg) 0 = true ->
              blendColors fg bg = TRANSPARENT)).
Proof.
  intros Hfg Hbg.
  pose proof (isByte_alphaOr255 _ Hbg) as Hba.
  destruct Hfg as (Hfr & Hfg & Hfb & Hfa), Hbg as (Hbr & Hbg & Hbb & _).
  split.
  - intros Ha. unfold blendColors. rewrite Ha.
    rewrite (blend_opaque_outA _ Hba).
    change (PrimFloat.eqb 1 0) with false. cbn [Color.r Color.g Color.b].
    rewrite !blend_opaque_bg_term by assumption.
    rewrite !blend_opaque_channel by assumption. done.
  - intros Ha.
    assert (Ha0 : alphaOr255 fg = 0%float) by (unfold alphaOr255; rewrite Ha; reflexivity).
    unfold blendColors. rewrite Ha0.
    fold (clearOutA (alphaOr255 bg)).
    rewrite (blend_clear_outA_zero _ Hba).
    split; intros Hz; rewrite Hz; [|reflexivity].
    rewrite !blend_clear_fg_term by assumption.
    rewrite !blend_clear_channel, blend_clear_alpha by assumption.
    reflexivity.
Qed.

Lemma blendColors_opaque_or_clear_foreground_witness :
  (alphaOr255 (Color.mk 200 100 50 None) = 255%float ->
     Color.r (blendColors (Color.mk 200 100 50 None) (Color.mk 10 20 30 (Some 7%float)))
     = 200%float
     /\ Color.g (blendColors (Color.mk 200 100 50 None) (Color.mk 10 20 30 (Some 7%float)))
        = 100%float
     /\ Color.b (blendColors (Color.mk 200 100 50 None) (Color.mk 10 20 30 (Some 7%float)))
        = 50%float)
  /\ (Color.a (Color.mk 200 100 50 None) = Some 0%float ->
        (PrimFloat.eqb 7 0 = false ->
           blendColors (Color.mk 200 100 50 None) (Color.mk 10 20 30 (Some 7%float))
           = Color.mk 10 20 30 (Some 7%float))
        /\ (PrimFloat.eqb 7 0 = true ->
              blendColors (Color.mk 200 100 50 None) (Color.mk 10 20 30 (Some 7%float))
              = TRANSPARENT)).
Proof.
  apply (blendColors_opaque_or_clear_foreground
           (Color.mk 200 100 50 None) (Color.mk 10 20 30 (Some 7%float))).
  - repeat split; [exists 200 | exists 100 | exists 50]; (split; [lia | reflexivity]).
  - repeat split; [exists 10 | exists 20 | exists 30 | exists 7]; (split; [lia | reflexivity]).
Defined.

(** C9 as stated fails where both alphas are 0: the blend of a transparent
    foreground over the transparent background (10, 20, 30, 0) is transparent
    black, which is not that background, also up to [colorsEqual]. *)
Lemma blendColors_clear_over_clear_differs :
  validColor (Color.mk 0 0 0 (Some 0%float))
  /\ validColor (Color.mk 10 20 30 (Some 0%float))
  /\ blendColors (Color.mk 0 0 0 (Some 0%float)) (Color.mk 10 20 30 (Some 0%float))
     = TRANSPARENT
  /\ blendColors (Color.mk 0 0 0 (Some 0%float)) (Color.mk 10 20 30 (Some 0%float))
     <> Color.mk 10 20 30 (Some 0%float)
  /\ colorsEqual
       (blendColors (Color.mk 0 0 0 (Some 0%float)) (Color.mk 10 20 30 (Some 0%float)))
       (Color.mk 10 20 30 (Some 0%float)) = false.
Proof.
  split; [|split].
  - repeat split; exists 0; (split; [lia | reflexivity]).
  - repeat split; [exists 10 | exists 20 | exists 30 | exists 0]; (split; [lia | reflexivity]).
  - split; [reflexivity|]. split; [|reflexivity].
    intros H. apply (f_equal Color.r) in H. vm_compute in H.
    apply Leibniz.eqb_spec in H. vm_compute in H. discriminate.
Qed.

(** ** [hex] *)

(** A doubled code unit that is not a hex digit has no digit for [parseInt]. *)
Lemma parseInt16_doubled_non_digit (c : Z) :
  hexDigit c = None -> parseInt16 [c; c] = nan.
Proof.
  intros Hc. unfold parseInt16. cbn [trimStart].
  destruct (isWhiteSpace c) eqn:Hws; [reflexivity|].
  assert (H48 : (c =? 48) = false).
  { destruct (c =? 48) eqn:E; [|reflexivity].
    apply Z.eqb_eq in E. subst c. discriminate Hc. }
  destruct (c =? 45) eqn:H45; [cbn [hexPrefix]; rewrite Hc; reflexivity|].
  destruct (c =? 43) eqn:H43; [cbn [hexPrefix]; rewrite Hc; reflexivity|].
  rewrite H48. cbn [andb hexPrefix]. rewrite Hc. reflexivity.
Qed.

Lemma hex_short_form_black (c0 c1 c2 : Z) :
  Exists (fun c => hexDigit c = None) [c0; c1; c2] ->
  (let r := parseInt16 [c0; c0] in
   let g := parseInt16 [c1; c1] in
   let b := parseInt16 [c2; c2] in
   if is_nan r || is_nan g || is_nan b then BLACK else Color.mk r g b (Some 255%float))
  = BLACK.
Proof.
  intros H. cbv zeta.
  apply Exists_cons in H as [H|H]; [|apply Exists_cons in H as [H|H];
    [|apply Exists_cons in H as [H|H]; [|by apply Exists_nil in H]]];
    rewrite (parseInt16_doubled_non_digit _ H); change (is_nan nan) with true;
    rewrite ?orb_true_r; reflexivity.
Qed.

(** C8 (amended). [hex] is total: every input gives a colour, which is opaque
    black or an opaque colour without NaN channel.  With [clean] the input
    after removal of its first [#]: a [clean] of neither 3 nor 6 code units
    gives opaque black, and so does a [clean] of 3 code units one of which is
    not a hex digit.  [#abc] and [#aabbcc] give the same colour for all code
    units a, b, c; [hex("#FFFFFF")] is [rgb(255,255,255,255)]; ["not-hex"]
    and ["#12"] give opaque black. *)
Theorem hex_total_black_on_bad_length_or_short_digit (s : JsString) :
  (hex s = BLACK
   \/ exists r g b, hex s = Color.mk r g b (Some 255%float)
                    /\ is_nan r = false /\ is_nan g = false /\ is_nan b = false)
  /\ (length (removeFirst 35 s) <> 3%nat -> length (removeFirst 35 s) <> 6%nat ->
      hex s = BLACK)
  /\ (length (removeFirst 35 s) = 3%nat ->
      Exists (fun c => hexDigit c = None) (removeFirst 35 s) ->
      hex s = BLACK)
  /\ (forall a b c, hex [35; a; b; c] = hex [35; a; a; b; b; c; c])
  /\ hex (js "#ABC") = hex (js "#AABBCC")
  /\ hex (js "#FFFFFF") = rgb 255 255 255 (Some 255%float)
  /\ hex (js "not-hex") = BLACK
  /\ hex (js "#12") = BLACK.
Proof.
  split; [|split; [|split; [|split]]].
  - unfold hex.
    destruct (length (removeFirst 35 s) =? 3)%nat.
    + cbv zeta.
      destruct (is_nan (parseInt16 _)) eqn:E1; [by left|].
      destruct (is_nan (parseInt16 (unitOr0 _ 1 ++ _))) eqn:E2; [by left|].
      destruct (is_nan (parseInt16 (unitOr0 _ 2 ++ _))) eqn:E3; [by left|].
      right. cbn [orb]. eauto 10.
    + destruct (length (removeFirst 35 s) =? 6)%nat; [|by left].
      cbv zeta.
      destruct (is_nan (parseInt16 _)) eqn:E1; [by left|].
      destruct (is_nan (parseInt16 (slice _ 2 4))) eqn:E2; [by left|].
      destruct (is_nan (parseInt16 (slice _ 4 6))) eqn:E3; [by left|].
      right. cbn [orb]. eauto 10.
  - intros H3 H6. unfold hex.
    apply Nat.eqb_neq in H3, H6. rewrite H3, H6. reflexivity.
  - intros H3 Hbad. unfold hex. rewrite H3. cbn [Nat.eqb].
    destruct (removeFirst 35 s) as [|c0 [|c1 [|c2 [|? ?]]]]; try discriminate H3.
    exact (hex_short_form_black c0 c1 c2 Hbad).
  - intros x y z. unfold hex. cbn [removeFirst].
    change (35 =? 35) with true. cbn iota. reflexivity.
  - repeat split; vm_compute; reflexivity.
Qed.

(** C8 as stated fails on six code units: [parseInt] reads the hex digits
    at the front of ["1g"] and ignores the rest, so ["#1g0000"], which has a
    non-hex digit, gives (1, 0, 0, 255); and since the [#] is optional,
    ["ABC"] gives (170, 187, 204, 255).  Neither is opaque black. *)
Lemma hex_non_black_on_malformed :
  hex (js "#1g0000") = Color.mk 1 0 0 (Some 255%float)
  /\ colorsEqual (hex (js "#1g0000")) BLACK = false
  /\ hex (js "ABC") = Color.mk 170 187 204 (Some 255%float)
  /\ colorsEqual (hex (js "ABC")) BLACK = false.
Proof. repeat split; vm_compute; reflexivity. Qed.

(** ** Integers in binary64

    [Z2f z] is the number the source holds for the integer [z].  Below 2^53
    it is exact, and so are the sums, differences, doublings and comparisons
    the line walk makes on such numbers: they are the operations of [Z].
    The proofs unfold the format's specification ([SpecFloat]): an exact
    result needs no rounding. *)

Lemma pow2_succ (d : Z) : 0 <= d -> 2 ^ (d + 1) = 2 * 2 ^ d.
Proof. intros Hd. rewrite Z.pow_add_r by lia. lia. Qed.

Lemma digits2_pos_bounds (p : positive) :
  2 ^ (Z.pos (digits2_pos p) - 1) <= Z.pos p < 2 ^ Z.pos (digits2_pos p).
Proof.
  induction p as [p IH|p IH|]; cbn [digits2_pos].
  - rewrite Pos2Z.inj_succ, Pos2Z.inj_xI.
    set (d := Z.pos (digits2_pos p)) in *.
    replace (Z.succ d - 1) with (d - 1 + 1) by lia. replace (Z.succ d) with (d + 1) by lia.
    rewrite !pow2_succ by lia. lia.
  - rewrite Pos2Z.inj_succ, Pos2Z.inj_xO.
    set (d := Z.pos (digits2_pos p)) in *.
    replace (Z.succ d - 1) with (d - 1 + 1) by lia. replace (Z.succ d) with (d + 1) by lia.
    rewrite !pow2_succ by lia. lia.
  - cbn. lia.
Qed.

Lemma digits2_pos_unique (p : positive) (d : Z) :
  2 ^ (d - 1) <= Z.pos p < 2 ^ d -> Z.pos (digits2_pos p) = d.
Proof.
  intros [Hlo Hhi]. pose proof (digits2_pos_bounds p) as [Hlo' Hhi'].
  set (d' := Z.pos (digits2_pos p)) in *.
  assert (0 < d).
  { destruct (Z_lt_le_dec 0 d) as [|Hd]; [done|].
    assert (2 ^ d <= 2 ^ 0) by (apply Z.pow_le_mono_r; lia). change (2 ^ 0) with 1 in *. lia. }
  destruct (Z.lt_trichotomy d' d) as [Hlt|[Heq|Hgt]]; [|done|].
  - assert (2 ^ d' <= 2 ^ (d - 1)) by (apply Z.pow_le_mono_r; lia). lia.
  - assert (2 ^ d <= 2 ^ (d' - 1)) by (apply Z.pow_le_mono_r; lia). lia.
Qed.

Lemma iter_xO_value (m n : positive) : Z.pos (Pos.iter xO m n) = Z.pos m * 2 ^ Z.pos n.
Proof.
  rewrite <- Z.shiftl_mul_pow2 by lia. cbn [Z.shiftl].
  apply (Pos.iter_swap_gen _ _ Z.pos xO (Z.mul 2)). intros a. reflexivity.
Qed.

(** Shifting out [n] zero bits is exact. *)
Lemma iter_shr_1_exact (n : positive) : forall q : positive,
  SpecFloat.iter_pos shr_1 n {| shr_m := Z.pos (Pos.iter xO q n); shr_r := false; shr_s := false |}
  = {| shr_m := Z.pos q; shr_r := false; shr_s := false |}.
Proof.
  induction n as [n IH|n IH|]; intros q; cbn [SpecFloat.iter_pos Pos.iter].
  - cbn [shr_1 orb]. rewrite IH. apply IH.
  - rewrite IH. apply IH.
  - reflexivity.
Qed.

Lemma shr_exact (q : positive) (e n : Z) (m : positive) :
  0 <= n -> Z.pos m = Z.pos q * 2 ^ n ->
  shr {| shr_m := Z.pos m; shr_r := false; shr_s := false |} e n
  = ({| shr_m := Z.pos q; shr_r := false; shr_s := false |}, e + n).
Proof.
  intros Hn Hm. destruct n as [|n|n]; [| |lia].
  - cbn [shr]. rewrite Z.add_0_r. repeat f_equal. change (2 ^ 0) with 1 in Hm. lia.
  - cbn [shr]. f_equal.
    assert (m = Pos.iter xO q n) as -> by (apply Pos2Z.inj; rewrite iter_xO_value; exact Hm).
    apply iter_shr_1_exact.
Qed.

Lemma digits2_pos_shift (q : positive) (n : Z) (m : positive) :
  0 <= n -> Z.pos m = Z.pos q * 2 ^ n ->
  Z.pos (digits2_pos m) = Z.pos (digits2_pos q) + n.
Proof.
  intros Hn Hm. apply digits2_pos_unique. rewrite Hm.
  pose proof (digits2_pos_bounds q) as [Hlo Hhi].
  replace (Z.pos (digits2_pos q) + n - 1) with (Z.pos (digits2_pos q) - 1 + n) by lia.
  rewrite !Z.pow_add_r by lia.
  assert (0 < 2 ^ n) by (apply Z.pow_pos_nonneg; lia). nia.
Qed.

(** Rounding a mantissa whose dropped bits are all zero. *)
Lemma binary_round_aux_exact (s : bool) (m q : positive) (e n : Z) :
  0 <= n -> Z.pos m = Z.pos q * 2 ^ n ->
  fexp prec emax (Z.pos (digits2_pos m) + e) = e + n ->
  e + n <= emax - prec ->
  binary_round_aux prec emax s (Z.pos m) e loc_Exact = S754_finite s q (e + n).
Proof.
  intros Hn Hm Hfexp Hmax.
  pose proof (digits2_pos_shift q n m Hn Hm) as Hd.
  unfold binary_round_aux, shr_fexp. cbn [Zdigits2 shr_record_of_loc].
  rewrite Hfexp. replace (e + n - e) with n by lia.
  rewrite (shr_exact q e n m Hn Hm).
  cbn [shr_m loc_of_shr_record round_nearest_even Zdigits2 shr_record_of_loc].
  replace (Z.pos (digits2_pos q) + (e + n)) with (Z.pos (digits2_pos m) + e) by lia.
  rewrite Hfexp, Z.sub_diag. cbn [shr shr_m].
  apply Z.leb_le in Hmax. by rewrite Hmax.
Qed.

Lemma fexp_small (d : Z) : -1021 <= d -> fexp prec emax d = d - 53.
Proof. intros Hd. unfold fexp, emin, prec, emax. lia. Qed.

(** The canonical form of [c * 2^k] at exponent [-k], for [c] of at most 53 bits. *)
Lemma binary_round_int (s : bool) (c m : positive) (k : Z) :
  0 <= k -> Z.pos m = Z.pos c * 2 ^ k -> Z.pos (digits2_pos c) <= 53 ->
  binary_round prec emax s m (- k) = SFcanon s c.
Proof.
  intros Hk Hm Hc.
  pose proof (digits2_pos_shift c k m Hk Hm) as Hd.
  set (dc := Z.pos (digits2_pos c)) in *.
  assert (0 < dc) as Hdc by (subst dc; lia).
  unfold binary_round. rewrite Hd.
  replace (dc + k + - k) with dc by lia. rewrite fexp_small by lia.
  unfold shl_align, SFcanon. fold dc.
  assert (Hq : Z.pos (Z.to_pos (Z.pos c * 2 ^ (53 - dc))) = Z.pos c * 2 ^ (53 - dc)).
  { rewrite Z2Pos.id; [done|]. apply Z.mul_pos_pos; [lia|]. apply Z.pow_pos_nonneg; lia. }
  destruct (dc - 53 - - k) as [|n|n] eqn:En.
  - replace (dc - 53) with (- k + 0) at 2 by lia.
    rewrite (binary_round_aux_exact s m (Z.to_pos (Z.pos c * 2 ^ (53 - dc))) (- k) 0).
    + f_equal. lia.
    + lia.
    + rewrite Hq, Hm. change (2 ^ 0) with 1. replace k with (53 - dc) by lia. lia.
    + rewrite Hd. replace (dc + k + - k) with dc by lia. rewrite fexp_small by lia. lia.
    + unfold emax, prec. lia.
  - rewrite (binary_round_aux_exact s m (Z.to_pos (Z.pos c * 2 ^ (53 - dc))) (- k) (Z.pos n)).
    + f_equal. lia.
    + lia.
    + rewrite Hq, Hm. replace k with ((53 - dc) + Z.pos n) by lia.
      rewrite Z.pow_add_r by lia. lia.
    + rewrite Hd. replace (dc + k + - k) with dc by lia. rewrite fexp_small by lia. lia.
    + unfold emax, prec. lia.
  - assert (Hm' : Z.pos (Pos.iter xO m n) = Z.pos c * 2 ^ (53 - dc)).
    { rewrite iter_xO_value, Hm. replace (53 - dc) with (k + Z.pos n) by lia.
      rewrite Z.pow_add_r by lia. lia. }
    rewrite (binary_round_aux_exact s (Pos.iter xO m n) (Pos.iter xO m n) (dc - 53) 0).
    + f_equal; [|lia]. apply Pos2Z.inj. by rewrite Hq.
    + lia.
    + change (2 ^ 0) with 1. lia.
    + rewrite (digits2_pos_shift c (53 - dc) _) by (lia || exact Hm'). fold dc.
      replace (dc + (53 - dc) + (dc - 53)) with dc by lia. rewrite fexp_small by lia. lia.
    + unfold emax, prec. lia.
Qed.

Lemma binary_normalize_int (z : Z) :
  Z.abs z < 2 ^ 53 -> binary_normalize prec emax z 0 false = SFint z.
Proof.
  intros Hz. destruct z as [|p|p]; cbn [binary_normalize SFint]; [done| |].
  - apply (binary_round_int false p p 0); [lia|change (2 ^ 0) with 1; lia|].
    pose proof (digits2_pos_bounds p) as [Hlo _].
    destruct (Z_le_gt_dec (Z.pos (digits2_pos p)) 53) as [|Hgt]; [done|].
    assert (2 ^ 53 <= 2 ^ (Z.pos (digits2_pos p) - 1)) by (apply Z.pow_le_mono_r; lia). lia.
  - apply (binary_round_int true p p 0); [lia|change (2 ^ 0) with 1; lia|].
    pose proof (digits2_pos_bounds p) as [Hlo _].
    destruct (Z_le_gt_dec (Z.pos (digits2_pos p)) 53) as [|Hgt]; [done|].
    assert (2 ^ 53 <= 2 ^ (Z.pos (digits2_pos p) - 1)) by (apply Z.pow_le_mono_r; lia). lia.
Qed.

Lemma SFopp_SFint (z : Z) : z <> 0 -> SFopp (SFint z) = SFint (- z).
Proof. intros Hz. by destruct z. Qed.

(** The number [Z2f z] is the integer [z]. *)
Lemma Prim2SF_Z2f (z : Z) : Z.abs z < 2 ^ 53 -> Prim2SF (Z2f z) = SFint z.
Proof.
  intros Hz. unfold Z2f.
  assert (Hto : forall n, 0 <= n < 2 ^ 53 -> Uint63.to_Z (Uint63.of_Z n) = n).
  { intros n Hn. rewrite Uint63.of_Z_spec. apply Z.mod_small.
    change wB with (2 ^ 63). assert (2 ^ 53 < 2 ^ 63) by (apply Z.pow_lt_mono_r; lia). lia. }
  destruct (z <? 0) eqn:Hneg.
  - apply Z.ltb_lt in Hneg.
    rewrite FloatAxioms.opp_spec, FloatAxioms.of_uint63_spec, Hto by lia.
    rewrite binary_normalize_int by lia.
    rewrite SFopp_SFint by lia. f_equal. lia.
  - apply Z.ltb_ge in Hneg.
    rewrite FloatAxioms.of_uint63_spec, Hto by lia.
    apply binary_normalize_int. lia.
Qed.

Lemma digits2_pos_le_53 (p : positive) : Z.pos p < 2 ^ 53 -> Z.pos (digits2_pos p) <= 53.
Proof.
  intros Hp. pose proof (digits2_pos_bounds p) as [Hlo _].
  destruct (Z_le_gt_dec (Z.pos (digits2_pos p)) 53) as [|Hgt]; [done|].
  assert (2 ^ 53 <= 2 ^ (Z.pos (digits2_pos p) - 1)) by (apply Z.pow_le_mono_r; lia). lia.
Qed.

Lemma binary_normalize_shifted (z k : Z) :
  0 <= k -> Z.abs z < 2 ^ 53 ->
  binary_normalize prec emax (z * 2 ^ k) (- k) false = SFint z.
Proof.
  intros Hk Hz. assert (0 < 2 ^ k) as Hpow by (apply Z.pow_pos_nonneg; lia).
  destruct z as [|p|p]; [done| |].
  - destruct (Z.pos p * 2 ^ k) as [|m|m] eqn:Em; [lia| |lia].
    cbn [binary_normalize SFint].
    apply (binary_round_int false p m k Hk); [lia|]. apply digits2_pos_le_53. lia.
  - destruct (Z.neg p * 2 ^ k) as [|m|m] eqn:Em; [lia|lia|].
    cbn [binary_normalize SFint].
    apply (binary_round_int true p m k Hk); [lia|]. apply digits2_pos_le_53. lia.
Qed.

Lemma shl_align_value (mx : positive) (ex ez : Z) :
  ez <= ex -> Z.pos (fst (shl_align mx ex ez)) = Z.pos mx * 2 ^ (ex - ez).
Proof.
  intros Hle. unfold shl_align. destruct (ez - ex) as [|d|d] eqn:Ed; cbn [fst].
  - replace (ex - ez) with 0 by lia. change (2 ^ 0) with 1. lia.
  - lia.
  - rewrite iter_xO_value. f_equal. f_equal. lia.
Qed.

(** The signed value and the exponent of a canonical integer. *)
Lemma SFcanon_aligned (s : bool) (p : positive) (ez : Z) :
  Z.pos p < 2 ^ 53 -> ez <= Z.pos (digits2_pos p) - 53 ->
  cond_Zopp s (Z.pos (fst (shl_align (Z.to_pos (Z.pos p * 2 ^ (53 - Z.pos (digits2_pos p))))
                                      (Z.pos (digits2_pos p) - 53) ez)))
  = cond_Zopp s (Z.pos p) * 2 ^ (- ez).
Proof.
  intros Hp Hez. pose proof (digits2_pos_le_53 p Hp) as Hd.
  set (d := Z.pos (digits2_pos p)) in *.
  rewrite shl_align_value by lia.
  rewrite Z2Pos.id by (apply Z.mul_pos_pos; [lia|apply Z.pow_pos_nonneg; lia]).
  rewrite <- Z.mul_assoc, <- Z.pow_add_r by lia.
  replace (53 - d + (d - 53 - ez)) with (- ez) by lia.
  destruct s; cbn [cond_Zopp]; lia.
Qed.

Lemma SFadd_int (a b : Z) :
  Z.abs a < 2 ^ 53 -> Z.abs b < 2 ^ 53 -> Z.abs (a + b) < 2 ^ 53 ->
  SFadd prec emax (SFint a) (SFint b) = SFint (a + b).
Proof.
  intros Ha Hb Hab.
  destruct a as [|pa|pa], b as [|pb|pb]; try reflexivity.
  all: unfold SFint at 1 2, SFcanon, SFadd.
  all: cbv zeta.
  all: rewrite !SFcanon_aligned by lia.
  all: rewrite <- Z.mul_add_distr_r.
  all: set (ez := Z.min _ _).
  all: replace ez with (- - ez) at 2 by lia.
  all: pose proof (digits2_pos_le_53 pa ltac:(lia)); pose proof (digits2_pos_le_53 pb ltac:(lia)).
  all: apply binary_normalize_shifted; [lia|exact Hab].
Qed.

Lemma SFsub_int (a b : Z) :
  Z.abs a < 2 ^ 53 -> Z.abs b < 2 ^ 53 -> Z.abs (a - b) < 2 ^ 53 ->
  SFsub prec emax (SFint a) (SFint b) = SFint (a - b).
Proof.
  intros Ha Hb Hab.
  destruct a as [|pa|pa], b as [|pb|pb]; try reflexivity.
  all: unfold SFint at 1 2, SFcanon, SFsub.
  all: cbv zeta.
  all: rewrite !SFcanon_aligned by lia.
  all: rewrite <- Z.mul_sub_distr_r.
  all: set (ez := Z.min _ _).
  all: replace ez with (- - ez) at 2 by lia.
  all: pose proof (digits2_pos_le_53 pa ltac:(lia)); pose proof (digits2_pos_le_53 pb ltac:(lia)).
  all: apply binary_normalize_shifted; [lia|exact Hab].
Qed.



Lemma canon_mantissa_compare (pa pb : positive) :
  Z.pos pa < 2 ^ 53 -> Z.pos pb < 2 ^ 53 ->
  match Z.pos (digits2_pos pa) - 53 ?= Z.pos (digits2_pos pb) - 53 with
  | Eq => Pos.compare_cont Eq (Z.to_pos (Z.pos pa * 2 ^ (53 - Z.pos (digits2_pos pa))))
                              (Z.to_pos (Z.pos pb * 2 ^ (53 - Z.pos (digits2_pos pb))))
  | Lt => Lt
  | Gt => Gt
  end = (Z.pos pa ?= Z.pos pb).
Proof.
  intros Ha Hb.
  pose proof (digits2_pos_le_53 pa Ha). pose proof (digits2_pos_le_53 pb Hb).
  pose proof (digits2_pos_bounds pa) as [La Ua]. pose proof (digits2_pos_bounds pb) as [Lb Ub].
  set (da := Z.pos (digits2_pos pa)) in *. set (db := Z.pos (digits2_pos pb)) in *.
  destruct (Z.compare_spec (da - 53) (db - 53)) as [He|Hlt|Hgt].
  - replace db with da by lia.
    assert (0 < 2 ^ (53 - da)) by (apply Z.pow_pos_nonneg; lia).
    change (Pos.compare_cont Eq ?x ?y) with (Pos.compare x y).
    rewrite <- Z2Pos.inj_compare by (apply Z.mul_pos_pos; lia).
    destruct (Z.compare_spec (Z.pos pa) (Z.pos pb)) as [E|L|G];
      [rewrite E; apply Z.compare_refl|apply Z.compare_lt_iff; nia|apply Z.compare_gt_iff; nia].
  - symmetry. apply Z.compare_lt_iff.
    assert (2 ^ da <= 2 ^ (db - 1)) by (apply Z.pow_le_mono_r; lia). lia.
  - symmetry. apply Z.compare_gt_iff.
    assert (2 ^ db <= 2 ^ (da - 1)) by (apply Z.pow_le_mono_r; lia). lia.
Qed.

Lemma SFcompare_int (a b : Z) :
  Z.abs a < 2 ^ 53 -> Z.abs b < 2 ^ 53 -> SFcompare (SFint a) (SFint b) = Some (a ?= b).
Proof.
  intros Ha Hb.
  destruct a as [|pa|pa], b as [|pb|pb]; try reflexivity.
  - unfold SFint, SFcanon, SFcompare. f_equal. apply canon_mantissa_compare; lia.
  - unfold SFint, SFcanon, SFcompare. f_equal.
    rewrite (Z.compare_antisym (Z.pos (digits2_pos pb) - 53)).
    change (Pos.compare_cont Eq ?x ?y) with (Pos.compare x y).
    rewrite (Pos.compare_antisym
               (Z.to_pos (Z.pos pb * 2 ^ (53 - Z.pos (digits2_pos pb))))).
    pose proof (canon_mantissa_compare pb pa ltac:(lia) ltac:(lia)) as H.
    change (Pos.compare_cont Eq ?x ?y) with (Pos.compare x y) in H.
    change (Z.neg pa ?= Z.neg pb) with (CompOpp (Z.pos pa ?= Z.pos pb)).
    rewrite (Z.compare_antisym (Z.pos pb) (Z.pos pa)), <- H.
    by destruct (Z.pos (digits2_pos pb) - 53 ?= Z.pos (digits2_pos pa) - 53).
Qed.


(** ** Arithmetic of the source on integers below 2^53 *)

Lemma Z2f_add (a b : Z) :
  Z.abs a < 2 ^ 53 -> Z.abs b < 2 ^ 53 -> Z.abs (a + b) < 2 ^ 53 ->
  (Z2f a + Z2f b)%float = Z2f (a + b).
Proof.
  intros Ha Hb Hab. apply Prim2SF_inj.
  rewrite FloatAxioms.add_spec, !Prim2SF_Z2f by assumption. by apply SFadd_int.
Qed.

Lemma Z2f_sub (a b : Z) :
  Z.abs a < 2 ^ 53 -> Z.abs b < 2 ^ 53 -> Z.abs (a - b) < 2 ^ 53 ->
  (Z2f a - Z2f b)%float = Z2f (a - b).
Proof.
  intros Ha Hb Hab. apply Prim2SF_inj.
  rewrite FloatAxioms.sub_spec, !Prim2SF_Z2f by assumption. by apply SFsub_int.
Qed.





Lemma Z2f_eqb (a b : Z) :
  Z.abs a < 2 ^ 53 -> Z.abs b < 2 ^ 53 -> PrimFloat.eqb (Z2f a) (Z2f b) = (a =? b).
Proof.
  intros Ha Hb. rewrite FloatAxioms.eqb_spec, !Prim2SF_Z2f by assumption.
  unfold SFeqb. rewrite SFcompare_int by assumption.
  destruct (Z.compare_spec a b) as [->|H|H];
    [by rewrite Z.eqb_refl|symmetry; apply Z.eqb_neq; lia|symmetry; apply Z.eqb_neq; lia].
Qed.


Lemma Z2f_inj (a b : Z) : Z.abs a < 2 ^ 53 -> Z.abs b < 2 ^ 53 -> Z2f a = Z2f b -> a = b.
Proof.
  intros Ha Hb Heq. apply Z.eqb_eq. rewrite <- Z2f_eqb by assumption.
  rewrite Heq, Z2f_eqb by assumption. apply Z.eqb_refl.
Qed.

(** ** The walk of [drawLine] *)

Section Walk.
Context (x2 y2 dx dy sx sy : Z).



Context (Hsx : sx = 1 \/ sx = -1) (Hsy : sy = 1 \/ sy = -1).








End Walk.


(** ** The walk on binary64 numbers *)




(** The bounds as numerals, for [lia]. *)
Ltac pow2 :=
  change (2 ^ 53) with 9007199254740992 in *;
  change (2 ^ 51) with 2251799813685248 in *;
  change (2 ^ 50) with 1125899906842624 in *.

Section Walk64.
Context (x2 y2 dx dy sx sy : Z).
Context (Hsx : sx = 1 \/ sx = -1) (Hsy : sy = 1 \/ sy = -1).
Context (Hx2 : Z.abs x2 <= 2 ^ 50) (Hy2 : Z.abs y2 <= 2 ^ 50).
Context (Hdx : 0 <= dx <= 2 ^ 51) (Hdy : 0 <= dy <= 2 ^ 51).



End Walk64.




(** From 2^53 on, [x += 1] is lost to rounding: the loop towards 2^53 + 2
    repeats the same round for ever, whatever its body does. *)
Lemma bresenham64_stuck {S : Type} (body : S -> float -> float -> float -> S) (fuel : nat) :
  forall s step,
    bresenham64 fuel (Z2f (2 ^ 53 + 2)) 0 2 0 1 (-1) body s (Z2f (2 ^ 53)) 0 2 step = None.
Proof.
  induction fuel as [|fuel IH]; intros s step; [reflexivity|].
  cbn [bresenham64].
  change (PrimFloat.eqb (Z2f (2 ^ 53)) (Z2f (2 ^ 53 + 2)) && PrimFloat.eqb 0 0) with false.
  change (PrimFloat.ltb (- 0) (2 * 2)) with true.
  change (PrimFloat.ltb (2 * 2) 2) with false.
  cbv beta iota zeta.
  change (2 - 0)%float with 2%float.
  change (Z2f (2 ^ 53) + 1)%float with (Z2f (2 ^ 53)).
  apply IH.
Qed.

Lemma lineWalk64_stuck (fuel : nat) :
  lineWalk64 fuel (Z2f (2 ^ 53)) 0 (Z2f (2 ^ 53 + 2)) 0 = None.
Proof. exact (bresenham64_stuck record64 fuel [] 0%float). Qed.

(** ** Pixel writes *)

Lemma getPixel_out_of_bounds_y buffer x y :
  (0 <=? y) && (y <? Z.of_nat (length buffer)) = false -> getPixel buffer x y = None.
Proof. intros H. unfold getPixel. by rewrite H. Qed.

Lemma getPixel_setPixel buffer x y c px py :
  getPixel (setPixel buffer x y c) px py
  = if (px =? x) && (py =? y) then overwrite c (getPixel buffer px py) else getPixel buffer px py.
Proof.
  assert (Hmiss : getPixel buffer x y = None ->
    getPixel buffer px py
    = if (px =? x) && (py =? y) then overwrite c (getPixel buffer px py) else getPixel buffer px py).
  { intros Hnone. destruct ((px =? x) && (py =? y)) eqn:E; [|reflexivity].
    apply andb_true_iff in E as [->%Z.eqb_eq ->%Z.eqb_eq]. by rewrite Hnone. }
  unfold setPixel.
  destruct ((0 <=? y) && (y <? Z.of_nat (length buffer))) eqn:Hy;
    [|apply Hmiss; unfold getPixel; by rewrite Hy].
  destruct (buffer !! Z.to_nat y) as [row|] eqn:Hrow;
    [|apply Hmiss; unfold getPixel; by rewrite Hy, Hrow].
  destruct ((0 <=? x) && (x <? Z.of_nat (length row))) eqn:Hx;
    [|apply Hmiss; unfold getPixel; by rewrite Hy, Hrow, Hx].
  clear Hmiss. unfold getPixel. rewrite length_insert.
  destruct ((0 <=? py) && (py <? Z.of_nat (length buffer))) eqn:Hpy;
    [|by destruct ((px =? x) && (py =? y))].
  apply andb_true_iff in Hy as [Hy1%Z.leb_le Hy2%Z.ltb_lt].
  apply andb_true_iff in Hx as [Hx1%Z.leb_le Hx2%Z.ltb_lt].
  destruct (Z.eq_dec py y) as [->|Hne].
  - rewrite list_lookup_insert_eq by lia. rewrite Hrow, length_insert, Z.eqb_refl, andb_true_r.
    destruct ((0 <=? px) && (px <? Z.of_nat (length row))) eqn:Hpx;
      [|by destruct (px =? x)].
    apply andb_true_iff in Hpx as [Hpx1%Z.leb_le Hpx2%Z.ltb_lt].
    destruct (Z.eq_dec px x) as [->|Hnx].
    + rewrite Z.eqb_refl, list_lookup_insert_eq by lia.
      destruct (lookup_lt_is_Some_2 row (Z.to_nat x)) as [c0 ->]; [lia|]. reflexivity.
    + rewrite list_lookup_insert_ne by lia.
      by apply Z.eqb_neq in Hnx as ->.
  - rewrite list_lookup_insert_ne by lia.
    apply Z.eqb_neq in Hne as ->. by rewrite andb_false_r.
Qed.

Lemma painted_setPixel c b x y :
  painted c (fun px py => (px =? x) && (py =? y)) b (setPixel b x y c).
Proof. intros px py. apply getPixel_setPixel. Qed.

Lemma painted_nothing c b : painted c (fun _ _ => false) b b.
Proof. by intros px py. Qed.

Lemma painted_ext c cover cover' b b' :
  (forall px py, cover px py = cover' px py) ->
  painted c cover b b' -> painted c cover' b b'.
Proof. intros Heq H px py. rewrite <- Heq. apply H. Qed.

Lemma painted_then c cover1 cover2 b b1 b2 :
  painted c cover1 b b1 -> painted c cover2 b1 b2 ->
  painted c (fun px py => cover1 px py || cover2 px py) b b2.
Proof.
  intros H1 H2 px py. rewrite H2, H1.
  destruct (cover1 px py), (cover2 px py), (getPixel b px py); reflexivity.
Qed.

Lemma painted_foldl {A} c (cover : A -> Z -> Z -> bool) (f : PixelBuffer -> A -> PixelBuffer) :
  (forall b a, painted c (cover a) b (f b a)) ->
  forall l b, painted c (fun px py => existsb (fun a => cover a px py) l) b (foldl f b l).
Proof.
  intros Hf. induction l as [|a l IH]; intros b; cbn [foldl existsb].
  - apply painted_nothing.
  - eapply painted_then; [apply Hf|apply IH].
Qed.

Lemma existsb_seqZ_eq (a n v : Z) :
  existsb (fun k => v =? a + k) (seqZ 0 n) = (a <=? v) && (v <? a + n).
Proof.
  apply eq_true_iff_eq.
  rewrite existsb_exists, andb_true_iff, Z.leb_le, Z.ltb_lt. split.
  - intros (k & Hin & Hk). apply list_elem_of_In, elem_of_seqZ in Hin.
    apply Z.eqb_eq in Hk. lia.
  - intros Hv. exists (v - a). split.
    + apply list_elem_of_In, elem_of_seqZ. lia.
    + apply Z.eqb_eq. lia.
Qed.


(** ** Lines *)


(** The guard of [drawLine]: a coordinate that is not finite makes the call
    return the buffer as it is, without entering the loop. *)
Lemma drawLine_non_finite fuel buffer x1 y1 x2 y2 color style :
  x1 = NonFinite \/ y1 = NonFinite \/ x2 = NonFinite \/ y2 = NonFinite ->
  drawLine fuel buffer x1 y1 x2 y2 color style = Some buffer.
Proof.
  intros [-> | [-> | [-> | ->]]]; unfold drawLine;
    repeat match goal with |- context [match ?c with Finite _ => _ | NonFinite => _ end] =>
             destruct c end; reflexivity.
Qed.















(** ** Region mapper *)

Lemma getPixelSafe_getPixel pixels x y :
  getPixelSafe pixels x y = default BLACK (getPixel pixels x y).
Proof.
  unfold getPixelSafe, getPixel, index.
  destruct (Z.ltb_spec y 0) as [Hy|Hy].
  - replace (0 <=? y) with false by (symmetry; apply Z.leb_gt; lia). reflexivity.
  - replace (0 <=? y) with true by (symmetry; apply Z.leb_le; lia). cbn [andb].
    destruct (pixels !! Z.to_nat y) as [row|] eqn:Hrow.
    + apply lookup_lt_Some in Hrow.
      replace (y <? Z.of_nat (length pixels)) with true by (symmetry; apply Z.ltb_lt; lia).
      destruct ((0 <=? x) && (x <? Z.of_nat (length row))) eqn:Hx; [|reflexivity].
      apply andb_true_iff in Hx as [Hx1%Z.leb_le _].
      by replace (x <? 0) with false by (symmetry; apply Z.ltb_ge; lia).
    + by destruct (y <? Z.of_nat (length pixels)).
Qed.

Lemma scan_row pixels startX startY threshold y xs bits fgs bgs :
  foldl (scanPixel pixels startX startY threshold y) (bits, fgs, bgs) xs
  = let row := map (fun x => default BLACK (getPixel pixels (startX + x) (startY + y))) xs in
    (bits ++ map (fun c => isPixelOn c threshold) row,
     fgs ++ List.filter (fun c => isPixelOn c threshold) row,
     bgs ++ List.filter (fun c => negb (isPixelOn c threshold)) row).
Proof.
  revert bits fgs bgs. induction xs as [|x xs IH]; intros bits fgs bgs.
  - cbn. by rewrite !app_nil_r.
  - cbn [foldl]. unfold scanPixel at 2. rewrite getPixelSafe_getPixel.
    cbv zeta. cbn [map List.filter].
    destruct (isPixelOn _ threshold) eqn:Hon; rewrite IH; cbv zeta; cbn [negb];
      rewrite <- ?app_assoc; reflexivity.
Qed.

Lemma scan_region pixels startX startY threshold width ys bits fgs bgs :
  foldl (fun st y => foldl (scanPixel pixels startX startY threshold y) st (seqZ 0 width))
        (bits, fgs, bgs) ys
  = let scanned :=
      concat (map (fun y =>
                     map (fun x => default BLACK (getPixel pixels (startX + x) (startY + y)))
                         (seqZ 0 width)) ys) in
    (bits ++ map (fun c => isPixelOn c threshold) scanned,
     fgs ++ List.filter (fun c => isPixelOn c threshold) scanned,
     bgs ++ List.filter (fun c => negb (isPixelOn c threshold)) scanned).
Proof.
  revert bits fgs bgs. induction ys as [|y ys IH]; intros bits fgs bgs.
  - cbn. by rewrite !app_nil_r.
  - cbn [foldl]. rewrite scan_row. cbv zeta. rewrite IH. cbv zeta.
    cbn [map concat]. rewrite map_app, !List.filter_app, <- !app_assoc. reflexivity.
Qed.

(** *** Packing the bits into a 32-bit word *)

Lemma toInt32_testbit z j : 0 <= j < 32 -> Z.testbit (toInt32 z) j = Z.testbit z j.
Proof.
  intros Hj. unfold toInt32.
  rewrite <- (Z.mod_pow2_bits_low _ 32 j) by lia.
  rewrite <- (Z.mod_pow2_bits_low z 32 j) by lia.
  f_equal.
  rewrite Zminus_mod, Z.mod_mod by lia.
  rewrite <- Zminus_mod. f_equal. lia.
Qed.

Lemma toInt32_range z : - 2 ^ 31 <= toInt32 z < 2 ^ 31.
Proof. unfold toInt32. pose proof (Z.mod_pos_bound (z + 2 ^ 31) (2 ^ 32)). lia. Qed.

Lemma or32_testbit a b j :
  0 <= j < 32 -> Z.testbit (or32 a b) j = Z.testbit a j || Z.testbit b j.
Proof. intros Hj. unfold or32. by rewrite Z.lor_spec, !toInt32_testbit. Qed.

Lemma shl32_one_testbit i j :
  0 <= i < 32 -> 0 <= j < 32 -> Z.testbit (shl32 1 i) j = (i =? j).
Proof.
  intros Hi Hj. unfold shl32. rewrite toInt32_testbit by lia.
  rewrite Z.mod_small by lia. change (toInt32 1) with 1.
  rewrite Z.shiftl_1_l. apply Z.pow2_bits_eqb. lia.
Qed.

Lemma packBits_testbit bits (k : nat) j :
  (k <= 32)%nat -> 0 <= j < 32 ->
  Z.testbit (packBits bits (Z.of_nat k)) j
  = (j <? Z.of_nat k) && default false (bits !! Z.to_nat j).
Proof.
  intros Hk Hj. induction k as [|k IH].
  - change (packBits bits (Z.of_nat 0)) with 0. change (Z.of_nat 0) with 0.
    rewrite Z.bits_0. destruct (Z.ltb_spec j 0); [lia|done].
  - unfold packBits in *.
    replace (Z.of_nat (S k)) with (Z.of_nat k + 1) by lia.
    rewrite seqZ_app by lia. rewrite foldl_app. cbn [seqZ]. 
    change (seqZ (0 + Z.of_nat k) 1) with [0 + Z.of_nat k]. cbn [foldl].
    rewrite Z.add_0_l. unfold index at 1.
    replace (Z.of_nat k <? 0) with false by (symmetry; apply Z.ltb_ge; lia).
    rewrite Nat2Z.id.
    destruct (Z.eq_dec j (Z.of_nat k)) as [->|Hne].
    + rewrite Nat2Z.id.
      replace (Z.of_nat k <? Z.of_nat k + 1) with true by (symmetry; apply Z.ltb_lt; lia).
      cbn [andb].
      destruct (default false (bits !! k)) eqn:Hb.
      * rewrite or32_testbit, shl32_one_testbit, Z.eqb_refl by lia. apply orb_true_r.
      * rewrite IH by lia.
        by replace (Z.of_nat k <? Z.of_nat k) with false by (symmetry; apply Z.ltb_ge; lia).
    + assert (Hlt : (j <? Z.of_nat k + 1) = (j <? Z.of_nat k)).
      { destruct (Z.ltb_spec j (Z.of_nat k)); [apply Z.ltb_lt|apply Z.ltb_ge]; lia. }
      rewrite Hlt.
      destruct (default false (bits !! k)); [|apply IH; lia].
      rewrite or32_testbit, shl32_one_testbit, IH by lia.
      apply Z.eqb_neq in Hne. rewrite Z.eqb_sym, Hne. apply orb_false_r.
Qed.

Lemma mapRegionToPattern_scanned pixels startX startY width height threshold :
  mapRegionToPattern pixels startX startY width height threshold
  = let scanned := regionPixels pixels startX startY width height in
    let bits := map (fun c => isPixelOn c threshold) scanned in
    Region.mk (packBits bits (Z.of_nat (length bits)))
              (averageColors (List.filter (fun c => isPixelOn c threshold) scanned))
              (averageColors (List.filter (fun c => negb (isPixelOn c threshold)) scanned)).
Proof.
  unfold mapRegionToPattern. rewrite scan_region. cbv zeta. cbn [app]. reflexivity.
Qed.

Lemma regionPixels_length pixels startX startY width height :
  length (regionPixels pixels startX startY width height)
  = (Z.to_nat height * Z.to_nat width)%nat.
Proof.
  unfold regionPixels.
  rewrite <- (length_seqZ 0 height).
  induction (seqZ 0 height) as [|y ys IH]; [reflexivity|].
  cbn [map concat length]. rewrite length_app, IH, length_map, length_seqZ. lia.
Qed.

Lemma lookup_concat_uniform {A} (ls : list (list A)) (n j i : nat) :
  Forall (fun l => length l = n) ls -> (i < n)%nat ->
  concat ls !! (j * n + i)%nat = ls !! j ≫= (.!! i).
Proof.
  intros Hall Hi. revert j. induction Hall as [|l ls Hl Hall IH]; intros j; [done|].
  cbn [concat]. destruct j as [|j].
  - cbn. by rewrite lookup_app_l by lia.
  - rewrite lookup_app_r by lia.
    replace (S j * n + i - length l)%nat with (j * n + i)%nat by lia.
    apply IH.
Qed.

(** The [i]-th pixel of the scan is the one in column [i mod width] and row
    [i / width] of the region. *)
Lemma regionPixels_lookup pixels startX startY width height i :
  0 < width -> 0 <= i < width * height ->
  regionPixels pixels startX startY width height !! Z.to_nat i
  = Some (default BLACK (getPixel pixels (startX + i mod width) (startY + i / width))).
Proof.
  intros Hw Hi.
  pose proof (Z.div_mod i width ltac:(lia)) as Hdm.
  pose proof (Z.mod_pos_bound i width Hw) as Hmod.
  assert (Hdiv : 0 <= i / width < height).
  { split; [apply Z.div_pos; lia|apply Z.div_lt_upper_bound; lia]. }
  unfold regionPixels.
  replace (Z.to_nat i)
    with (Z.to_nat (i / width) * Z.to_nat width + Z.to_nat (i mod width))%nat by nia.
  rewrite (lookup_concat_uniform _ (Z.to_nat width)).
  - rewrite list_lookup_fmap, lookup_seqZ_lt by lia. cbn.
    rewrite list_lookup_fmap, lookup_seqZ_lt by lia. cbn.
    rewrite !Z2Nat.id by lia. reflexivity.
  - apply Forall_forall. intros row Hrow%list_elem_of_In%in_map_iff.
    destruct Hrow as (y & <- & _). by rewrite length_map, length_seqZ.
  - lia.
Qed.

(** C3 (amended). For a region of at most 32 pixels, bit [i] of the pattern
    is set iff the [i]-th pixel of the row-major scan is on (bit 0 for the
    first pixel scanned, bits past the last pixel clear); the foreground is
    the average of the on pixels and the background the average of the off
    pixels; the [i]-th pixel scanned is the one in column [i mod w] and row
    [i / w] of the region, read as opaque black outside the buffer.  The
    2x2 buffer with only pixel (0,0) white gives, at threshold 128 with the
    quadrant set, one cell with pattern 1 and glyph U+2598. *)
Theorem mapRegionToPattern_row_major_bits
    (pixels : PixelBuffer) (startX startY width height : Z) (threshold : float) :
  (length (regionPixels pixels startX startY width height) <= 32)%nat ->
  (forall i, 0 <= i < 32 ->
     Z.testbit (Region.pattern
                  (mapRegionToPattern pixels startX startY width height threshold)) i
     = match regionPixels pixels startX startY width height !! Z.to_nat i with
       | Some c => isPixelOn c threshold
       | None => false
       end)
  /\ Region.fg (mapRegionToPattern pixels startX startY width height threshold)
     = averageColors (List.filter (fun c => isPixelOn c threshold)
                        (regionPixels pixels startX startY width height))
  /\ Region.bg (mapRegionToPattern pixels startX startY width height threshold)
     = averageColors (List.filter (fun c => negb (isPixelOn c threshold))
                        (regionPixels pixels startX startY width height))
  /\ (forall i, 0 < width -> 0 <= i < width * height ->
        regionPixels pixels startX startY width height !! Z.to_nat i
        = Some (default BLACK
                  (getPixel pixels (startX + i mod width) (startY + i / width))))
  /\ Region.pattern (mapRegionToPattern [[WHITE; BLACK]; [BLACK; BLACK]] 0 0 2 2 128) = 1
  /\ mapPixelsToCells [[WHITE; BLACK]; [BLACK; BLACK]] QUADRANT 128
     = Some [[Cell.mk [0x2598] WHITE BLACK]].
Proof.
  intros Hlen. rewrite mapRegionToPattern_scanned. cbv zeta.
  cbn [Region.pattern Region.fg Region.bg].
  split_and!; try reflexivity.
  - intros i Hi. rewrite packBits_testbit by (rewrite ?length_map; lia).
    rewrite length_map, list_lookup_fmap.
    destruct (regionPixels pixels startX startY width height !! Z.to_nat i) as [c|] eqn:Hc.
    + apply lookup_lt_Some in Hc. cbn.
      replace (i <? _) with true by (symmetry; apply Z.ltb_lt; lia). reflexivity.
    + cbn. apply andb_false_r.
  - intros i Hw Hi. by apply regionPixels_lookup.
Qed.

Lemma mapRegionToPattern_row_major_bits_witness :
  (forall i, 0 <= i < 32 ->
     Z.testbit (Region.pattern
                  (mapRegionToPattern [[BLACK; WHITE]; [WHITE]] 0 0 2 3 128)) i
     = match regionPixels [[BLACK; WHITE]; [WHITE]] 0 0 2 3 !! Z.to_nat i with
       | Some c => isPixelOn c 128
       | None => false
       end)
  /\ Region.fg (mapRegionToPattern [[BLACK; WHITE]; [WHITE]] 0 0 2 3 128)
     = averageColors (List.filter (fun c => isPixelOn c 128)
                        (regionPixels [[BLACK; WHITE]; [WHITE]] 0 0 2 3))
  /\ Region.bg (mapRegionToPattern [[BLACK; WHITE]; [WHITE]] 0 0 2 3 128)
     = averageColors (List.filter (fun c => negb (isPixelOn c 128))
                        (regionPixels [[BLACK; WHITE]; [WHITE]] 0 0 2 3))
  /\ (forall i, 0 < 2 -> 0 <= i < 2 * 3 ->
        regionPixels [[BLACK; WHITE]; [WHITE]] 0 0 2 3 !! Z.to_nat i
        = Some (default BLACK (getPixel [[BLACK; WHITE]; [WHITE]] (0 + i mod 2) (0 + i / 2))))
  /\ Region.pattern (mapRegionToPattern [[WHITE; BLACK]; [BLACK; BLACK]] 0 0 2 2 128) = 1
  /\ mapPixelsToCells [[WHITE; BLACK]; [BLACK; BLACK]] QUADRANT 128
     = Some [[Cell.mk [0x2598] WHITE BLACK]].
Proof.
  apply (mapRegionToPattern_row_major_bits [[BLACK; WHITE]; [WHITE]] 0 0 2 3 128).
  vm_compute. lia.
Defined.

(** C3 as stated fails past 32 pixels: the shift count of [1 << i] is taken
    modulo 32.  In a row of 33 pixels of which only the last is on, bit 0 of
    the pattern is set although pixel 0 is off, and bit 32 is clear although
    pixel 32 is on. *)
Lemma mapRegionToPattern_33_pixels_wrap :
  regionPixels [replicate 32 BLACK ++ [WHITE]] 0 0 33 1 !! 0%nat = Some BLACK
  /\ isPixelOn BLACK 128 = false
  /\ Z.testbit (Region.pattern
                  (mapRegionToPattern [replicate 32 BLACK ++ [WHITE]] 0 0 33 1 128)) 0
     = true
  /\ regionPixels [replicate 32 BLACK ++ [WHITE]] 0 0 33 1 !! 32%nat = Some WHITE
  /\ isPixelOn WHITE 128 = true
  /\ Z.testbit (Region.pattern
                  (mapRegionToPattern [replicate 32 BLACK ++ [WHITE]] 0 0 33 1 128)) 32
     = false.
Proof. split_and!; vm_compute; reflexivity. Qed.

(** ** Cell grid *)

Lemma ceilDiv_spec a b : 0 < b -> (ceilDiv a b - 1) * b < a <= ceilDiv a b * b.
Proof.
  intros Hb. unfold ceilDiv.
  pose proof (Z.div_mod (- a) b ltac:(lia)).
  pose proof (Z.mod_pos_bound (- a) b Hb). nia.
Qed.

Lemma ceilDiv_mul c b : 0 < b -> ceilDiv (c * b) b = c.
Proof.
  intros Hb. unfold ceilDiv.
  replace (- (c * b)) with ((- c) * b) by lia.
  rewrite Z.div_mul by lia. lia.
Qed.

Lemma packBits_small (bits : list bool) :
  (length bits <= 6)%nat ->
  0 <= packBits bits (Z.of_nat (length bits)) < 2 ^ Z.of_nat (length bits).
Proof.
  intros Hlen.
  do 7 (destruct bits as [|[] bits];
        [vm_compute; split; [discriminate|reflexivity]| |]);
    cbn [length] in Hlen; lia.
Qed.

Lemma searchSucceeds_catalog (name : SymbolSet) (p : Z) :
  name <> BRAILLE ->
  0 <= p < 2 ^ ((getSymbolDimensions name).1 * (getSymbolDimensions name).2) ->
  searchSucceeds (getSymbolSet name) p = true.
Proof.
  intros Hname Hp.
  apply (forallb_seqZ (searchSucceeds (getSymbolSet name)) 0
           (2 ^ ((getSymbolDimensions name).1 * (getSymbolDimensions name).2))); [|lia].
  destruct name; try done; vm_compute; reflexivity.
Qed.

Lemma mapCell_returns pixels name threshold cy cx :
  is_Some (mapCell pixels name (getSymbolSet name) (getSymbolDimensions name)
                   threshold cy cx).
Proof.
  destruct (decide (name = BRAILLE)) as [->|Hname]; [by eexists|].
  assert (Hcell :
    is_Some (symbol ← findBestSymbol
                         (Region.pattern
                            (mapRegionToPattern pixels
                               (cx * (getSymbolDimensions name).1)
                               (cy * (getSymbolDimensions name).2)
                               (getSymbolDimensions name).1 (getSymbolDimensions name).2
                               threshold))
                         (getSymbolSet name);
             Some (Cell.mk (SymbolDef.char symbol)
                           (Region.fg (mapRegionToPattern pixels
                               (cx * (getSymbolDimensions name).1)
                               (cy * (getSymbolDimensions name).2)
                               (getSymbolDimensions name).1 (getSymbolDimensions name).2
                               threshold))
                           (Region.bg (mapRegionToPattern pixels
                               (cx * (getSymbolDimensions name).1)
                               (cy * (getSymbolDimensions name).2)
                               (getSymbolDimensions name).1 (getSymbolDimensions name).2
                               threshold))))).
  { rewrite mapRegionToPattern_scanned. cbv zeta. cbn [Region.pattern].
    set (bits := map _ (regionPixels _ _ _ _ _)).
    assert (Hlen : length bits
                   = (Z.to_nat (getSymbolDimensions name).2
                      * Z.to_nat (getSymbolDimensions name).1)%nat).
    { subst bits. by rewrite length_map, regionPixels_length. }
    pose proof (searchSucceeds_catalog name (packBits bits (Z.of_nat (length bits))) Hname)
      as Hfound.
    unfold searchSucceeds in Hfound.
    destruct (findBestSymbol _ (getSymbolSet name)); [by eexists|].
    assert (false = true); [|discriminate]. apply Hfound.
    pose proof (packBits_small bits) as Hsmall.
    rewrite Hlen in *.
    destruct name; try done; apply Hsmall; vm_compute; lia. }
  destruct name; try done; exact Hcell.
Qed.

Lemma row_read_pad (row : list Color) (k : nat) (x : Z) :
  (if (0 <=? x) && (x <? Z.of_nat (length (row ++ replicate k BLACK)))
   then default BLACK (index (row ++ replicate k BLACK) x) else BLACK)
  = (if (0 <=? x) && (x <? Z.of_nat (length row))
     then default BLACK (index row x) else BLACK).
Proof.
  unfold index. rewrite length_app, length_replicate.
  destruct (Z.leb_spec 0 x) as [Hx|Hx]; [|reflexivity]. cbn [andb].
  replace (x <? 0) with false by (symmetry; apply Z.ltb_ge; lia).
  destruct (Z.ltb_spec x (Z.of_nat (length row))) as [Hin|Hout].
  - replace (x <? Z.of_nat (length row + k)) with true by (symmetry; apply Z.ltb_lt; lia).
    by rewrite lookup_app_l by lia.
  - destruct (Z.ltb_spec x (Z.of_nat (length row + k))) as [Hpad|_]; [|reflexivity].
    rewrite lookup_app_r by lia. by rewrite lookup_replicate_2 by lia.
Qed.

(** Reading through [getPixelSafe] does not tell a buffer from its extension
    with opaque black. *)
Lemma getPixelSafe_padBuffer pixels W' H' x y :
  getPixelSafe (padBuffer pixels W' H') x y = getPixelSafe pixels x y.
Proof.
  unfold getPixelSafe, padBuffer. unfold index at 1 3.
  destruct (Z.ltb_spec y 0) as [Hy|Hy]; [reflexivity|].
  destruct (pixels !! Z.to_nat y) as [row|] eqn:Hrow.
  - rewrite lookup_app_l by (rewrite length_map; by apply lookup_lt_Some in Hrow).
    rewrite list_lookup_fmap, Hrow. cbn [fmap option_fmap option_map].
    apply row_read_pad.
  - apply lookup_ge_None in Hrow.
    rewrite lookup_app_r by (rewrite length_map; lia).
    rewrite length_map.
    destruct (replicate _ _ !! _) as [row|] eqn:Hpad; [|reflexivity].
    apply lookup_replicate in Hpad as [-> _].
    pose proof (row_read_pad [] (Z.to_nat W') x) as Hread.
    cbn [app] in Hread. rewrite Hread. cbn [length]. change (Z.of_nat 0) with 0.
    destruct (Z.leb_spec 0 x), (Z.ltb_spec x 0); cbn [andb]; try reflexivity; lia.
Qed.

Lemma regionPixels_ext pixels1 pixels2 startX startY width height :
  (forall x y, getPixelSafe pixels1 x y = getPixelSafe pixels2 x y) ->
  regionPixels pixels1 startX startY width height
  = regionPixels pixels2 startX startY width height.
Proof.
  intros Hext. unfold regionPixels. f_equal.
  apply map_ext. intros y. apply map_ext. intros x.
  by rewrite <- !getPixelSafe_getPixel.
Qed.

Lemma foldl_pointwise {A B} (f g : A -> B -> A) (l : list B) (a : A) :
  (forall a x, f a x = g a x) -> foldl f a l = foldl g a l.
Proof.
  intros H. revert a. induction l as [|x l IH]; intros a; [done|].
  cbn [foldl]. by rewrite H, IH.
Qed.

Lemma mapCell_ext pixels1 pixels2 name symbols dims threshold cy cx :
  (forall x y, getPixelSafe pixels1 x y = getPixelSafe pixels2 x y) ->
  mapCell pixels1 name symbols dims threshold cy cx
  = mapCell pixels2 name symbols dims threshold cy cx.
Proof.
  intros Hext. unfold mapCell.
  assert (Hbraille : forall sx sy,
            mapBrailleRegion pixels1 sx sy threshold = mapBrailleRegion pixels2 sx sy threshold).
  { intros sx sy. unfold mapBrailleRegion.
    erewrite foldl_pointwise; [reflexivity|].
    intros [[pattern fgColors] bgColors] [[dx dy] bit]. by rewrite Hext. }
  assert (Hregion : forall sx sy w h,
            mapRegionToPattern pixels1 sx sy w h threshold
            = mapRegionToPattern pixels2 sx sy w h threshold).
  { intros sx sy w h. rewrite !mapRegionToPattern_scanned.
    by rewrite (regionPixels_ext pixels1 pixels2). }
  destruct name; by rewrite ?Hbraille, ?Hregion.
Qed.

(** C4. A buffer whose first row has [W > 0] pixels and which has [H > 0]
    rows is mapped, for a symbol set of sub-grid [w] x [h], to a grid of
    [ceil(H / h)] rows of [ceil(W / w)] cells each; a rectangular buffer
    gives the same grid as its extension with opaque black up to whole
    sub-grids, so partial trailing sub-grids are read as padded with opaque
    black.  A buffer without rows, or whose first row is empty, is mapped to
    the empty grid. *)
Theorem mapPixelsToCells_grid_of_ceil_dimensions
    (pixels : PixelBuffer) (name : SymbolSet) (threshold : float) (W H : Z) :
  Z.of_nat (length pixels) = H ->
  Forall (fun row => Z.of_nat (length row) = W) pixels ->
  0 < W -> 0 < H ->
  (exists grid,
     mapPixelsToCells pixels name threshold = Some grid
     /\ Z.of_nat (length grid) = ceilDiv H (getSymbolDimensions name).2
     /\ Forall (fun row => Z.of_nat (length row) = ceilDiv W (getSymbolDimensions name).1)
               grid
     /\ (ceilDiv W (getSymbolDimensions name).1 - 1) * (getSymbolDimensions name).1 < W
        <= ceilDiv W (getSymbolDimensions name).1 * (getSymbolDimensions name).1
     /\ (ceilDiv H (getSymbolDimensions name).2 - 1) * (getSymbolDimensions name).2 < H
        <= ceilDiv H (getSymbolDimensions name).2 * (getSymbolDimensions name).2
     /\ mapPixelsToCells
          (padBuffer pixels
             (ceilDiv W (getSymbolDimensions name).1 * (getSymbolDimensions name).1)
             (ceilDiv H (getSymbolDimensions name).2 * (getSymbolDimensions name).2))
          name threshold
        = Some grid)
  /\ mapPixelsToCells [] name threshold = Some []
  /\ (forall rest, mapPixelsToCells ([] :: rest) name threshold = Some []).
Proof.
  intros HH Hrect HW HHpos. split; [|by split].
  set (w := (getSymbolDimensions name).1). set (h := (getSymbolDimensions name).2).
  assert (Hw : 0 < w) by (subst w; destruct name; vm_compute; reflexivity).
  assert (Hh : 0 < h) by (subst h; destruct name; vm_compute; reflexivity).
  pose proof (ceilDiv_spec W w Hw) as HcW. pose proof (ceilDiv_spec H h Hh) as HcH.
  destruct pixels as [|firstRow rest]; [cbn in HH; lia|].
  assert (HfirstW : Z.of_nat (length firstRow) = W) by (by inversion Hrect).
  assert (Hgrid : forall pixels' : PixelBuffer,
    is_Some (mapM (fun cy =>
                     mapM (mapCell pixels' name (getSymbolSet name) (getSymbolDimensions name)
                                   threshold cy)
                          (seqZ 0 (ceilDiv W w)))
                  (seqZ 0 (ceilDiv H h)))).
  { intros pixels'. apply mapM_is_Some, Forall_forall. intros cy _.
    apply mapM_is_Some, Forall_forall. intros cx _. apply mapCell_returns. }
  destruct (Hgrid (firstRow :: rest)) as [grid Hmap].
  exists grid.
  assert (Hcode : mapPixelsToCells (firstRow :: rest) name threshold = Some grid).
  { unfold mapPixelsToCells.
    replace (length firstRow =? 0)%nat with false by (symmetry; apply Nat.eqb_neq; lia).
    cbv zeta. by rewrite HH, HfirstW. }
  split_and!; try (assumption || lia).
  - apply length_mapM in Hmap. rewrite length_seqZ in Hmap. lia.
  - apply mapM_Some_1 in Hmap. eapply Forall2_Forall_r; [exact Hmap|].
    apply Forall_forall. intros cy _ row Hrow.
    apply length_mapM in Hrow. rewrite length_seqZ in Hrow. lia.
  - assert (Hpad : exists firstRow' rest',
              padBuffer (firstRow :: rest) (ceilDiv W w * w) (ceilDiv H h * h)
              = firstRow' :: rest'
              /\ Z.of_nat (length firstRow') = ceilDiv W w * w
              /\ Z.of_nat (length (firstRow' :: rest')) = ceilDiv H h * h).
    { unfold padBuffer. cbn [map app]. eexists _, _. split; [reflexivity|]. split.
      - rewrite length_app, length_replicate. lia.
      - cbn [length] in *. rewrite length_app, length_map, length_replicate. lia. }
    destruct Hpad as (firstRow' & rest' & Hpad & HpadW & HpadH).
    pose proof (getPixelSafe_padBuffer (firstRow :: rest) (ceilDiv W w * w) (ceilDiv H h * h))
      as Hread.
    rewrite Hpad in *. rewrite <- Hmap. unfold mapPixelsToCells.
    replace (length firstRow' =? 0)%nat with false by (symmetry; apply Nat.eqb_neq; lia).
    cbv zeta. rewrite HpadW, HpadH. fold w h. rewrite !ceilDiv_mul by assumption.
    apply mapM_ext. intros cy. apply mapM_ext. intros cx.
    apply mapCell_ext. exact Hread.
Qed.

Lemma mapPixelsToCells_grid_of_ceil_dimensions_witness :
  (exists grid,
     mapPixelsToCells [[WHITE; BLACK; WHITE]; [BLACK; BLACK; WHITE]; [WHITE; WHITE; WHITE]]
                      QUADRANT 128 = Some grid
     /\ Z.of_nat (length grid) = ceilDiv 3 (getSymbolDimensions QUADRANT).2
     /\ Forall (fun row => Z.of_nat (length row) = ceilDiv 3 (getSymbolDimensions QUADRANT).1)
               grid
     /\ (ceilDiv 3 (getSymbolDimensions QUADRANT).1 - 1) * (getSymbolDimensions QUADRANT).1 < 3
        <= ceilDiv 3 (getSymbolDimensions QUADRANT).1 * (getSymbolDimensions QUADRANT).1
     /\ (ceilDiv 3 (getSymbolDimensions QUADRANT).2 - 1) * (getSymbolDimensions QUADRANT).2 < 3
        <= ceilDiv 3 (getSymbolDimensions QUADRANT).2 * (getSymbolDimensions QUADRANT).2
     /\ mapPixelsToCells
          (padBuffer [[WHITE; BLACK; WHITE]; [BLACK; BLACK; WHITE]; [WHITE; WHITE; WHITE]]
             (ceilDiv 3 (getSymbolDimensions QUADRANT).1 * (getSymbolDimensions QUADRANT).1)
             (ceilDiv 3 (getSymbolDimensions QUADRANT).2 * (getSymbolDimensions QUADRANT).2))
          QUADRANT 128
        = Some grid)
  /\ mapPixelsToCells [] QUADRANT 128 = Some []
  /\ (forall rest, mapPixelsToCells ([] :: rest) QUADRANT 128 = Some []).
Proof.
  apply (mapPixelsToCells_grid_of_ceil_dimensions
           [[WHITE; BLACK; WHITE]; [BLACK; BLACK; WHITE]; [WHITE; WHITE; WHITE]]
           QUADRANT 128 3 3).
  - reflexivity.
  - repeat constructor.
  - lia.
  - lia.
Defined.

(** ** Serializer *)

Lemma foldl_push {A B} (f : A -> B) (l : list A) (acc : list B) :
  foldl (fun lines x => lines ++ [f x]) acc l = acc ++ map f l.
Proof.
  revert acc. induction l as [|x l IH]; intros acc; cbn [foldl map].
  - by rewrite app_nil_r.
  - by rewrite IH, <- app_assoc.
Qed.

Lemma gridToString_lines grid options :
  gridToString grid options = join [10] (map (rowLine (RenderOptions.colorMode options)) grid).
Proof.
  unfold gridToString. rewrite foldl_push. cbn [app].
  by destruct grid.
Qed.

Lemma rowLine_none_acc row line lastFg lastBg :
  foldl (emitCell NONE) (line, lastFg, lastBg) row
  = (line ++ concat (map Cell.char row), lastFg, lastBg).
Proof.
  revert line. induction row as [|cell row IH]; intros line; cbn [foldl map concat].
  - by rewrite app_nil_r.
  - unfold emitCell at 2. by rewrite IH, <- app_assoc.
Qed.

Lemma rowLine_truecolor_acc row line lastFg lastBg :
  (foldl (emitCell TRUECOLOR) (line, lastFg, lastBg) row).1.1
  = line ++ concat (map segmentString (segmentsFrom lastFg lastBg row)).
Proof.
  revert line lastFg lastBg.
  induction row as [|cell row IH]; intros line lastFg lastBg; cbn [foldl map concat segmentsFrom].
  - by rewrite app_nil_r.
  - unfold emitCell at 2. unfold segmentString at 1. cbn [Segment.fgEscape Segment.bgEscape Segment.glyph].
    destruct (changed lastFg (Cell.fg cell)), (changed lastBg (Cell.bg cell));
      rewrite IH; cbn [from_option app]; rewrite <- ?app_assoc; reflexivity.
Qed.

Lemma lastEmitted_snoc escapes e :
  lastEmitted (escapes ++ [e]) = match e with Some c => Some c | None => lastEmitted escapes end.
Proof.
  unfold lastEmitted. rewrite omap_app. destruct e as [c|]; cbn.
  - apply last_snoc.
  - by rewrite app_nil_r.
Qed.

Lemma segmentsFrom_length lastFg lastBg row :
  length (segmentsFrom lastFg lastBg row) = length row.
Proof.
  revert lastFg lastBg. induction row as [|cell row IH]; intros; cbn; [done|by rewrite IH].
Qed.

Lemma segmentsFrom_follows (pre : list Segment) row :
  forall i cell seg,
    row !! i = Some cell ->
    segmentsFrom (lastEmitted (Segment.fgEscape <$> pre))
                 (lastEmitted (Segment.bgEscape <$> pre)) row !! i = Some seg ->
    Segment.glyph seg = Cell.char cell
    /\ Segment.fgEscape seg
       = (if changed (lastEmitted
                        (Segment.fgEscape <$>
                           pre ++ take i (segmentsFrom (lastEmitted (Segment.fgEscape <$> pre))
                                            (lastEmitted (Segment.bgEscape <$> pre)) row)))
                     (Cell.fg cell)
          then Some (Cell.fg cell) else None)
    /\ Segment.bgEscape seg
       = (if changed (lastEmitted
                        (Segment.bgEscape <$>
                           pre ++ take i (segmentsFrom (lastEmitted (Segment.fgEscape <$> pre))
                                            (lastEmitted (Segment.bgEscape <$> pre)) row)))
                     (Cell.bg cell)
          then Some (Cell.bg cell) else None).
Proof.
  revert pre. induction row as [|cell0 row IH]; intros pre i cell seg Hcell Hseg; [done|].
  destruct i as [|i]; cbn [segmentsFrom] in *.
  - injection Hcell as <-. injection Hseg as <-. cbn [take]. rewrite app_nil_r. done.
  - cbn [lookup list_lookup] in Hcell, Hseg. cbn [take].
    set (seg0 := Segment.mk _ _ (Cell.char cell0)) in *.
    rewrite (cons_middle seg0), app_assoc.
    assert (Hfg : lastEmitted (Segment.fgEscape <$> pre ++ [seg0])
                  = if changed (lastEmitted (Segment.fgEscape <$> pre)) (Cell.fg cell0)
                    then Some (Cell.fg cell0) else lastEmitted (Segment.fgEscape <$> pre)).
    { rewrite fmap_app. cbn [fmap list_fmap]. rewrite lastEmitted_snoc. subst seg0. cbn.
      by destruct (changed _ (Cell.fg cell0)). }
    assert (Hbg : lastEmitted (Segment.bgEscape <$> pre ++ [seg0])
                  = if changed (lastEmitted (Segment.bgEscape <$> pre)) (Cell.bg cell0)
                    then Some (Cell.bg cell0) else lastEmitted (Segment.bgEscape <$> pre)).
    { rewrite fmap_app. cbn [fmap list_fmap]. rewrite lastEmitted_snoc. subst seg0. cbn.
      by destruct (changed _ (Cell.bg cell0)). }
    rewrite <- Hfg, <- Hbg in Hseg |- *.
    by apply IH.
Qed.

Lemma segmentsFrom_followsRow row : followsRow row (segmentsFrom None None row).
Proof.
  split; [apply segmentsFrom_length|].
  intros i cell seg Hcell Hseg.
  exact (segmentsFrom_follows [] row i cell seg Hcell Hseg).
Qed.

Lemma rowLine_truecolor row :
  rowLine TRUECOLOR row
  = concat (map segmentString (segmentsFrom None None row)) ++ resetColors.
Proof.
  unfold rowLine.
  pose proof (rowLine_truecolor_acc row [] None None) as H.
  destruct (foldl (emitCell TRUECOLOR) ([], None, None) row) as [[line ?] ?].
  cbn in H. by rewrite H.
Qed.

Lemma rowLine_none row : rowLine NONE row = concat (map Cell.char row).
Proof. unfold rowLine. by rewrite rowLine_none_acc. Qed.

(** C2. In truecolor mode every line is the concatenation, cell by cell, of
    a foreground escape exactly where the foreground differs (for
    [colorsEqual]) from the last one emitted in that row or none was emitted
    yet, likewise a background escape, then the glyph; the first cell of a row
    emits both, and every line ends with the reset sequence.  In mode [none]
    a line is the concatenation of its glyphs.  Each line is what its row
    alone serializes to, so no colour state passes from one row to the next. *)
Theorem gridToString_minimal_escapes (grid : Grid) (options : RenderOptions) :
  (RenderOptions.colorMode options = TRUECOLOR ->
   exists segss : list (list Segment),
     Forall2 followsRow grid segss
     /\ gridToString grid options
        = join [10] (map (fun segs => concat (map segmentString segs) ++ resetColors) segss)
     /\ Forall2 (fun row segs =>
                   forall cell, head row = Some cell ->
                     exists seg, head segs = Some seg
                                 /\ Segment.fgEscape seg = Some (Cell.fg cell)
                                 /\ Segment.bgEscape seg = Some (Cell.bg cell))
                grid segss)
  /\ (RenderOptions.colorMode options = NONE ->
      gridToString grid options = join [10] (map (fun row => concat (map Cell.char row)) grid))
  /\ gridToString grid options = join [10] (map (fun row => gridToString [row] options) grid).
Proof.
  rewrite gridToString_lines. split_and!.
  - intros ->. exists (map (segmentsFrom None None) grid). split_and!.
    + apply Forall2_fmap_r, Forall_Forall2_diag, Forall_forall.
      intros row _. apply segmentsFrom_followsRow.
    + rewrite map_map. f_equal. apply map_ext. intros row. apply rowLine_truecolor.
    + apply Forall2_fmap_r, Forall_Forall2_diag, Forall_forall.
      intros row _ cell Hhead. destruct row as [|c row]; [done|].
      injection Hhead as ->. eexists. by split.
  - intros ->. f_equal. apply map_ext. intros row. apply rowLine_none.
  - apply (f_equal (join [10])), map_ext. intros row. reflexivity.
Qed.

(** ** Buffers *)












(** ** More of the colour model *)

Lemma isByte_Z2f n : 0 <= n <= 255 -> isByte (Z2f n).
Proof. intros Hn. by exists n. Qed.

(** X1. [clampByte] saturates: an integer between -255 and 510 (a sum or a
    difference of two bytes) is clamped to [0,255], and the same integer
    plus one half is rounded up before clamping. *)
Theorem clampByte_saturates_and_rounds_half_up (n : Z) :
  -255 <= n <= 510 ->
  clampByte (Z2f n) = Z2f (Z.max 0 (Z.min 255 n))
  /\ clampByte (Z2f n + 0.5) = Z2f (Z.max 0 (Z.min 255 (n + 1))).
Proof.
  intros Hn.
  pose proof (forallb_seqZ
    (fun n => feq (clampByte (Z2f n)) (Z2f (Z.max 0 (Z.min 255 n)))
              && feq (clampByte (Z2f n + 0.5)) (Z2f (Z.max 0 (Z.min 255 (n + 1)))))
    (-255) 766 ltac:(vm_compute; reflexivity) n ltac:(lia)) as H.
  apply andb_true_iff in H as [H1 H2].
  split; by apply Leibniz.eqb_spec.
Qed.

Lemma clampByte_saturates_and_rounds_half_up_witness :
  clampByte (Z2f 300) = Z2f (Z.max 0 (Z.min 255 300))
  /\ clampByte (Z2f 300 + 0.5) = Z2f (Z.max 0 (Z.min 255 (300 + 1))).
Proof. apply (clampByte_saturates_and_rounds_half_up 300). lia. Defined.

Lemma intValue_Z2f n : 0 <= n <= 2040 -> intValue (Z2f n) = n.
Proof.
  intros Hn. apply Z.eqb_eq.
  apply (forallb_seqZ (fun n => intValue (Z2f n) =? n) 0 2041); [|lia].
  vm_compute. reflexivity.
Qed.

Lemma isByte_intValue x : isByte x -> 0 <= intValue x <= 255 /\ x = Z2f (intValue x).
Proof. intros (n & Hn & ->). rewrite intValue_Z2f by lia. done. Qed.

Lemma clampByte_mean s n :
  1 <= n <= 8 -> 0 <= s <= 255 * n ->
  clampByte (Z2f s / Z2f n) = Z2f (halfUpDiv s n).
Proof.
  intros Hn Hs. apply Leibniz.eqb_spec. unfold halfUpDiv.
  pose proof (forallb_seqZ
    (fun n => forallb (fun s => (255 * n <? s)
                                || feq (clampByte (Z2f s / Z2f n)) (Z2f ((2 * s + n) / (2 * n))))
                      (seqZ 0 2041)) 1 8 ltac:(vm_compute; reflexivity) n ltac:(lia)) as H.
  cbv beta in H.
  pose proof (forallb_seqZ _ _ _ H s ltac:(lia)) as H'. cbv beta in H'.
  apply orb_true_iff in H' as [H'|H']; [lia|exact H'].
Qed.

Lemma channelSum_bounds channel colors :
  Forall (fun c => isByte (channel c)) colors ->
  0 <= channelSum channel colors <= 255 * Z.of_nat (length colors).
Proof.
  induction 1 as [|c colors Hc _ IH]; cbn [channelSum foldr length]; [lia|].
  apply isByte_intValue in Hc as [Hc _]. fold (channelSum channel colors). lia.
Qed.

Lemma averageColors_sums colors : forall sr sg sb sa,
  Forall validColor colors ->
  0 <= sr -> 0 <= sg -> 0 <= sb -> 0 <= sa ->
  sr + 255 * Z.of_nat (length colors) <= 2040 ->
  sg + 255 * Z.of_nat (length colors) <= 2040 ->
  sb + 255 * Z.of_nat (length colors) <= 2040 ->
  sa + 255 * Z.of_nat (length colors) <= 2040 ->
  foldl (fun '(sr, sg, sb, sa) color =>
           (sr + Color.r color, sg + Color.g color, sb + Color.b color,
            sa + alphaOr255 color)%float)
        (Z2f sr, Z2f sg, Z2f sb, Z2f sa) colors
  = (Z2f (sr + channelSum Color.r colors), Z2f (sg + channelSum Color.g colors),
     Z2f (sb + channelSum Color.b colors), Z2f (sa + channelSum alphaOr255 colors)).
Proof.
  induction colors as [|c colors IH]; intros sr sg sb sa Hall Hr Hg Hb Ha Br Bg Bb Ba.
  - cbn. by rewrite !Z.add_0_r.
  - apply Forall_cons in Hall as [Hc Hall].
    pose proof (isByte_alphaOr255 c Hc) as Hca.
    destruct Hc as (Hcr & Hcg & Hcb & _).
    apply isByte_intValue in Hcr as [Rr Er], Hcg as [Rg Eg], Hcb as [Rb Eb], Hca as [Ra Ea].
    cbn [length] in Br, Bg, Bb, Ba.
    cbn [foldl channelSum foldr]. fold (channelSum Color.r colors)
      (channelSum Color.g colors) (channelSum Color.b colors) (channelSum alphaOr255 colors).
    rewrite Er at 1. rewrite Eg at 1. rewrite Eb at 1. rewrite Ea at 1.
    rewrite !Z2f_add by (pow2; lia).
    rewrite IH by (try assumption; lia).
    by rewrite !Z.add_assoc.
Qed.

(** X2. [averageColors] of one to eight valid colours (a glyph region has at
    most 2 x 4 pixels) is the channel-wise mean rounded to the nearest
    integer, halves up, an absent alpha counting as 255; the result always
    carries an alpha. *)
Theorem averageColors_is_the_rounded_mean (colors : list Color) :
  colors <> [] -> (length colors <= 8)%nat -> Forall validColor colors ->
  averageColors colors
  = Color.mk (meanChannel Color.r colors) (meanChannel Color.g colors)
             (meanChannel Color.b colors) (Some (meanChannel alphaOr255 colors)).
Proof.
  intros Hne Hlen Hall.
  assert (1 <= Z.of_nat (length colors) <= 8) as Hn
    by (destruct colors; [done|cbn [length] in *; lia]).
  unfold averageColors. destruct colors as [|c0 colors0] eqn:E; [done|].
  rewrite <- E in Hn, Hall |- *. clear E Hne Hlen.
  change (0%float, 0%float, 0%float, 0%float) with (Z2f 0, Z2f 0, Z2f 0, Z2f 0).
  rewrite averageColors_sums by (try assumption; lia).
  cbv beta iota zeta. rewrite !Z.add_0_l.
  assert (Forall (fun c => isByte (Color.r c)) colors) as Hr
    by (eapply Forall_impl; [exact Hall|]; by intros c (? & _)).
  assert (Forall (fun c => isByte (Color.g c)) colors) as Hg
    by (eapply Forall_impl; [exact Hall|]; by intros c (_ & ? & _)).
  assert (Forall (fun c => isByte (Color.b c)) colors) as Hb
    by (eapply Forall_impl; [exact Hall|]; by intros c (_ & _ & ? & _)).
  assert (Forall (fun c => isByte (alphaOr255 c)) colors) as Ha
    by (eapply Forall_impl; [exact Hall|]; apply isByte_alphaOr255).
  apply channelSum_bounds in Hr, Hg, Hb, Ha.
  unfold meanChannel.
  rewrite !clampByte_mean by lia. reflexivity.
Qed.

Lemma averageColors_is_the_rounded_mean_witness :
  averageColors [WHITE; BLACK; Color.mk 10 20 30 None]
  = Color.mk (meanChannel Color.r [WHITE; BLACK; Color.mk 10 20 30 None])
             (meanChannel Color.g [WHITE; BLACK; Color.mk 10 20 30 None])
             (meanChannel Color.b [WHITE; BLACK; Color.mk 10 20 30 None])
             (Some (meanChannel alphaOr255 [WHITE; BLACK; Color.mk 10 20 30 None])).
Proof.
  apply averageColors_is_the_rounded_mean.
  - discriminate.
  - cbn. lia.
  - repeat constructor;
      first [ by exists 255 | by exists 0 | by exists 10 | by exists 20 | by exists 30 ].
Defined.

Lemma invert_byte n : 0 <= n <= 255 -> (255 - Z2f n)%float = Z2f (255 - n).
Proof. intros Hn. change 255%float with (Z2f 255). apply Z2f_sub; pow2; lia. Qed.

Lemma validColor_withAlpha c : validColor c -> validColor (withAlpha c).
Proof.
  intros Hc. pose proof (isByte_alphaOr255 c Hc). destruct Hc as (? & ? & ? & _).
  by repeat split.
Qed.

(** X3. [invertColor] on a valid colour gives a valid colour whose colour
    channels are 255 minus the old ones and whose alpha is the old one
    (255 when absent); inverting twice gives the colour back, with its
    alpha written out. *)
Theorem invertColor_complements_and_is_an_involution (c : Color) :
  validColor c ->
  validColor (invertColor c)
  /\ intValue (Color.r (invertColor c)) = 255 - intValue (Color.r c)
  /\ intValue (Color.g (invertColor c)) = 255 - intValue (Color.g c)
  /\ intValue (Color.b (invertColor c)) = 255 - intValue (Color.b c)
  /\ Color.a (invertColor c) = Some (alphaOr255 c)
  /\ invertColor (invertColor c) = withAlpha c.
Proof.
  intros Hc. pose proof (isByte_alphaOr255 c Hc) as Ha.
  destruct c as [r g b a].
  unfold validColor in Hc; cbn [Color.r Color.g Color.b Color.a] in Hc.
  destruct Hc as ((nr & Hr & ->) & (ng & Hg & ->) & (nb & Hb & ->) & _).
  unfold invertColor, withAlpha; cbn [Color.r Color.g Color.b Color.a].
  change (alphaOr255 (Color.mk _ _ _ (Some ?x))) with x.
  rewrite !invert_byte by lia.
  rewrite !intValue_Z2f by lia.
  replace (255 - (255 - nr)) with nr by lia.
  replace (255 - (255 - ng)) with ng by lia.
  replace (255 - (255 - nb)) with nb by lia.
  split_and!; try reflexivity.
  repeat split; try (apply isByte_Z2f; lia). exact Ha.
Qed.

Lemma invertColor_complements_and_is_an_involution_witness :
  validColor (invertColor (Color.mk 10 20 30 None))
  /\ intValue (Color.r (invertColor (Color.mk 10 20 30 None)))
     = 255 - intValue (Color.r (Color.mk 10 20 30 None))
  /\ intValue (Color.g (invertColor (Color.mk 10 20 30 None)))
     = 255 - intValue (Color.g (Color.mk 10 20 30 None))
  /\ intValue (Color.b (invertColor (Color.mk 10 20 30 None)))
     = 255 - intValue (Color.b (Color.mk 10 20 30 None))
  /\ Color.a (invertColor (Color.mk 10 20 30 None)) = Some (alphaOr255 (Color.mk 10 20 30 None))
  /\ invertColor (invertColor (Color.mk 10 20 30 None)) = withAlpha (Color.mk 10 20 30 None).
Proof.
  apply invertColor_complements_and_is_an_involution.
  repeat split; first [ by exists 10 | by exists 20 | by exists 30 ].
Defined.

(** X4. On valid colours [colorsEqual] decides equality of the four
    channels, an absent alpha counting as 255. *)
Theorem colorsEqual_decides_channel_equality (c1 c2 : Color) :
  validColor c1 -> validColor c2 ->
  (colorsEqual c1 c2 = true <-> withAlpha c1 = withAlpha c2).
Proof.
  intros H1 H2.
  pose proof (isByte_alphaOr255 c1 H1) as (a1 & ? & Ea1).
  pose proof (isByte_alphaOr255 c2 H2) as (a2 & ? & Ea2).
  destruct H1 as ((r1 & ? & Er1) & (g1 & ? & Eg1) & (b1 & ? & Eb1) & _).
  destruct H2 as ((r2 & ? & Er2) & (g2 & ? & Eg2) & (b2 & ? & Eb2) & _).
  unfold colorsEqual, withAlpha.
  rewrite Er1, Eg1, Eb1, Ea1, Er2, Eg2, Eb2, Ea2.
  rewrite !Z2f_eqb by (pow2; lia). rewrite !andb_true_iff, !Z.eqb_eq.
  split.
  - intros [[[-> ->] ->] ->]. reflexivity.
  - intros [= E1 E2 E3 E4].
    apply Z2f_inj in E1, E2, E3, E4; pow2; lia.
Qed.

Lemma colorsEqual_decides_channel_equality_witness :
  colorsEqual (Color.mk 0 0 0 None) BLACK = true <-> withAlpha (Color.mk 0 0 0 None) = withAlpha BLACK.
Proof.
  apply colorsEqual_decides_channel_equality;
    repeat split; first [ by exists 0 | by exists 255 ].
Defined.

(** ** [hex] on well-formed strings *)

Lemma hexDigit_range c v : hexDigit c = Some v -> 48 <= c <= 102 /\ 0 <= v <= 15.
Proof.
  unfold hexDigit. intros H.
  destruct ((48 <=? c) && (c <=? 57)) eqn:E1;
    [apply andb_true_iff in E1; injection H as <-; lia|].
  destruct ((97 <=? c) && (c <=? 102)) eqn:E2;
    [apply andb_true_iff in E2; injection H as <-; lia|].
  destruct ((65 <=? c) && (c <=? 70)) eqn:E3;
    [apply andb_true_iff in E3; injection H as <-; lia|discriminate].
Qed.

Lemma parseInt16_two_digits c1 c2 v1 v2 :
  hexDigit c1 = Some v1 -> hexDigit c2 = Some v2 ->
  parseInt16 [c1; c2] = Z2f (16 * v1 + v2).
Proof.
  intros H1 H2.
  pose proof (hexDigit_range _ _ H1) as [R1 _]. pose proof (hexDigit_range _ _ H2) as [R2 _].
  assert (Hall : forallb (fun c1 => forallb (twoDigitsOk c1) (seqZ 48 55)) (seqZ 48 55) = true)
    by (vm_compute; reflexivity).
  pose proof (forallb_seqZ _ _ _ Hall c1 ltac:(lia)) as Hc1. cbv beta in Hc1.
  pose proof (forallb_seqZ _ _ _ Hc1 c2 ltac:(lia)) as Hc2.
  unfold twoDigitsOk in Hc2. rewrite H1, H2 in Hc2. by apply Leibniz.eqb_spec.
Qed.

Lemma is_nan_Z2f z : Z.abs z < 2 ^ 53 -> is_nan (Z2f z) = false.
Proof. intros Hz. unfold is_nan. by rewrite Z2f_eqb, Z.eqb_refl. Qed.

(** X5. [hex] reads two hex digits per channel, of either case, with or
    without the leading [#]; the short form repeats each digit (so a digit [v]
    gives the channel [17 * v]); the colour is opaque and its channels are
    bytes. *)
Theorem hex_reads_two_digits_per_channel (c1 c2 c3 c4 c5 c6 v1 v2 v3 v4 v5 v6 : Z) :
  hexDigit c1 = Some v1 -> hexDigit c2 = Some v2 -> hexDigit c3 = Some v3 ->
  hexDigit c4 = Some v4 -> hexDigit c5 = Some v5 -> hexDigit c6 = Some v6 ->
  hex [35; c1; c2; c3; c4; c5; c6]
  = Color.mk (Z2f (16 * v1 + v2)) (Z2f (16 * v3 + v4)) (Z2f (16 * v5 + v6)) (Some 255%float)
  /\ hex [c1; c2; c3; c4; c5; c6] = hex [35; c1; c2; c3; c4; c5; c6]
  /\ hex [35; c1; c2; c3]
     = Color.mk (Z2f (17 * v1)) (Z2f (17 * v2)) (Z2f (17 * v3)) (Some 255%float)
  /\ hex [c1; c2; c3] = hex [35; c1; c2; c3]
  /\ validColor (hex [35; c1; c2; c3; c4; c5; c6])
  /\ validColor (hex [35; c1; c2; c3]).
Proof.
  intros H1 H2 H3 H4 H5 H6.
  pose proof (hexDigit_range _ _ H1) as [R1 V1]. pose proof (hexDigit_range _ _ H2) as [R2 V2].
  pose proof (hexDigit_range _ _ H3) as [R3 V3]. pose proof (hexDigit_range _ _ H4) as [R4 V4].
  pose proof (hexDigit_range _ _ H5) as [R5 V5]. pose proof (hexDigit_range _ _ H6) as [R6 V6].
  assert (Hlong : hex [35; c1; c2; c3; c4; c5; c6]
    = Color.mk (Z2f (16 * v1 + v2)) (Z2f (16 * v3 + v4)) (Z2f (16 * v5 + v6)) (Some 255%float)).
  { unfold hex. cbn [removeFirst Z.eqb Pos.eqb length Nat.eqb slice take drop Nat.sub].
    rewrite (parseInt16_two_digits c1 c2 v1 v2), (parseInt16_two_digits c3 c4 v3 v4),
      (parseInt16_two_digits c5 c6 v5 v6) by assumption.
    by rewrite !is_nan_Z2f by (pow2; lia). }
  assert (Hshort : hex [35; c1; c2; c3]
    = Color.mk (Z2f (17 * v1)) (Z2f (17 * v2)) (Z2f (17 * v3)) (Some 255%float)).
  { unfold hex. cbn [removeFirst Z.eqb Pos.eqb length Nat.eqb unitOr0 lookup list_lookup app].
    rewrite (parseInt16_two_digits c1 c1 v1 v1), (parseInt16_two_digits c2 c2 v2 v2),
      (parseInt16_two_digits c3 c3 v3 v3) by assumption.
    rewrite !is_nan_Z2f by (pow2; lia). cbn [orb].
    by replace (16 * v1 + v1) with (17 * v1) by lia;
       replace (16 * v2 + v2) with (17 * v2) by lia;
       replace (16 * v3 + v3) with (17 * v3) by lia. }
  assert (Hno : forall c v, hexDigit c = Some v -> (c =? 35) = false).
  { intros c v H. apply hexDigit_range in H. apply Z.eqb_neq. lia. }
  split_and!.
  - exact Hlong.
  - unfold hex. cbn [removeFirst].
    by rewrite (Hno _ _ H1), (Hno _ _ H2), (Hno _ _ H3), (Hno _ _ H4), (Hno _ _ H5),
         (Hno _ _ H6).
  - exact Hshort.
  - unfold hex. cbn [removeFirst].
    by rewrite (Hno _ _ H1), (Hno _ _ H2), (Hno _ _ H3).
  - rewrite Hlong. repeat split; try (apply isByte_Z2f; lia). by exists 255.
  - rewrite Hshort. repeat split; try (apply isByte_Z2f; lia). by exists 255.
Qed.

Lemma hex_reads_two_digits_per_channel_witness :
  hex (js "#1aFf07")
  = Color.mk (Z2f (16 * 1 + 10)) (Z2f (16 * 15 + 15)) (Z2f (16 * 0 + 7)) (Some 255%float)
  /\ hex (js "1aFf07") = hex (js "#1aFf07")
  /\ hex (js "#1aF") = Color.mk (Z2f (17 * 1)) (Z2f (17 * 10)) (Z2f (17 * 15)) (Some 255%float)
  /\ hex (js "1aF") = hex (js "#1aF")
  /\ validColor (hex (js "#1aFf07"))
  /\ validColor (hex (js "#1aF")).
Proof.
  exact (hex_reads_two_digits_per_channel 49 97 70 102 48 55 1 10 15 15 0 7
           eq_refl eq_refl eq_refl eq_refl eq_refl eq_refl).
Defined.

(** ** [interpolateColor] at and beyond the ends *)

(** A number that is at most zero, against zero and a positive number. *)
Lemma SFleb_zero_facts (x : spec_float) (M : positive) (E : Z) :
  SFleb x (S754_zero false) = true ->
  SFeqb x x = true
  /\ SFltb (S754_finite false M E) x = false
  /\ SFltb x (S754_finite false M E) = true
  /\ SFltb (S754_zero false) x = false.
Proof.
  destruct x as [s|s| |s m e]; try destruct s; try discriminate; intros _;
    unfold SFeqb, SFltb; cbn [SFcompare]; try (split_and!; reflexivity).
  rewrite Z.compare_refl. change (Pos.compare_cont Eq m m) with (Pos.compare m m).
  rewrite Pos.compare_refl. split_and!; reflexivity.
Qed.

(** A number that is at least a positive number [M * 2^E]. *)
Lemma SFleb_pos_facts (x : spec_float) (M : positive) (E : Z) :
  SFleb (S754_finite false M E) x = true ->
  SFeqb x x = true
  /\ SFltb x (S754_finite false M E) = false
  /\ (SFltb (S754_finite false M E) x = true \/ x = S754_finite false M E).
Proof.
  destruct x as [s|s| |s m e]; try destruct s; try discriminate;
    unfold SFleb, SFeqb, SFltb; cbn [SFcompare]; try (intros _; split_and!; auto; fail).
  change (Pos.compare_cont Eq ?a ?b) with (Pos.compare a b).
  rewrite Z.compare_refl, Pos.compare_refl.
  rewrite (Z.compare_antisym E e), (Pos.compare_antisym M m).
  destruct (Z.compare_spec E e) as [->|Hlt|Hgt]; cbn [CompOpp]; try discriminate.
  - destruct (Pos.compare_spec M m) as [->|Hlt|Hgt]; cbn [CompOpp]; try discriminate;
      intros _; split_and!; auto.
  - intros _; split_and!; auto.
Qed.

Lemma clampT_low (t : float) :
  PrimFloat.leb t 0 = true -> Math_max 0 (Math_min 1 t) = 0%float.
Proof.
  rewrite FloatAxioms.leb_spec. change (Prim2SF 0) with (S754_zero false).
  intros H. set (M := 4503599627370496%positive).
  destruct (SFleb_zero_facts _ M (-52) H) as (Hn & H1 & H2 & H3).
  change (S754_finite false M (-52)) with (Prim2SF 1) in H1, H2.
  change (S754_zero false) with (Prim2SF 0) in H3.
  rewrite <- FloatAxioms.eqb_spec in Hn. rewrite <- FloatAxioms.ltb_spec in H1, H2, H3.
  unfold Math_min, is_nan. rewrite Hn. cbn [negb]. change (negb (PrimFloat.eqb 1 1)) with false.
  cbn [orb]. rewrite H1, H2.
  unfold Math_max, is_nan. rewrite Hn. change (negb (PrimFloat.eqb 0 0)) with false.
  cbn [negb orb]. rewrite H3. change (get_sign 0) with false.
  by destruct (PrimFloat.ltb t 0).
Qed.

Lemma clampT_high (t : float) :
  PrimFloat.leb 1 t = true -> Math_max 0 (Math_min 1 t) = 1%float.
Proof.
  rewrite FloatAxioms.leb_spec. set (M := 4503599627370496%positive).
  change (Prim2SF 1) with (S754_finite false M (-52)).
  intros H.
  destruct (SFleb_pos_facts _ M (-52) H) as (Hn & H1 & H2).
  assert (Hone : PrimFloat.ltb 1 t = true \/ t = 1%float).
  { destruct H2 as [H2|H2]; [left|right].
    - by rewrite FloatAxioms.ltb_spec.
    - apply Prim2SF_inj. exact H2. }
  change (S754_finite false M (-52)) with (Prim2SF 1) in H1.
  rewrite <- FloatAxioms.eqb_spec in Hn. rewrite <- FloatAxioms.ltb_spec in H1.
  assert (Hmin : Math_min 1 t = 1%float).
  { unfold Math_min, is_nan. rewrite Hn. change (negb (PrimFloat.eqb 1 1)) with false.
    cbn [negb orb]. rewrite H1. change (get_sign 1) with false.
    destruct Hone as [-> | ->]; [reflexivity|]. by destruct (PrimFloat.ltb 1 1). }
  rewrite Hmin. reflexivity.
Qed.

Lemma Z2f_mul_zero (d : Z) :
  Z.abs d < 2 ^ 53 -> Prim2SF (Z2f d * 0) = S754_zero (d <? 0).
Proof.
  intros Hd. rewrite FloatAxioms.mul_spec, Prim2SF_Z2f by assumption.
  change (Prim2SF 0) with (S754_zero false). by destruct d.
Qed.

Lemma Z2f_add_signed_zero (x : Z) (f : float) (s : bool) :
  0 <= x < 2 ^ 53 -> Prim2SF f = S754_zero s -> (Z2f x + f)%float = Z2f x.
Proof.
  intros Hx Hf. apply Prim2SF_inj.
  rewrite FloatAxioms.add_spec, Prim2SF_Z2f, Hf by lia.
  destruct x as [|p|p]; [by destruct s|reflexivity|lia].
Qed.

Lemma Z2f_mul_one (d : Z) : Z.abs d < 2 ^ 53 -> (Z2f d * 1)%float = Z2f d.
Proof.
  intros Hd. apply Prim2SF_inj.
  rewrite FloatAxioms.mul_spec, Prim2SF_Z2f by assumption.
  set (M := 4503599627370496%positive).
  change (Prim2SF 1) with (S754_finite false M (-52)).
  destruct d as [|p|p]; [reflexivity| |].
  all: pose proof (digits2_pos_le_53 p ltac:(lia)) as Hdig.
  all: unfold SFint, SFcanon, SF64mul, SFmul.
  all: set (d := Z.pos (digits2_pos p)) in *.
  all: assert (0 < d) by (subst d; lia).
  all: assert (Hq : Z.pos (Z.to_pos (Z.pos p * 2 ^ (53 - d))) = Z.pos p * 2 ^ (53 - d))
         by (rewrite Z2Pos.id; [done|]; apply Z.mul_pos_pos; [lia|apply Z.pow_pos_nonneg; lia]).
  all: assert (HM : Z.pos M = 2 ^ 52) by reflexivity.
  all: cbn [xorb].
  all: replace (d - 53) with (d - 53 + -52 + 52) at 2 by lia.
  all: apply binary_round_aux_exact; [lia| | |unfold emax, prec; lia].
  all: try (rewrite Pos2Z.inj_mul, HM; reflexivity).
  all: rewrite (digits2_pos_shift (Z.to_pos (Z.pos p * 2 ^ (53 - d))) 52)
         by (lia || (rewrite Pos2Z.inj_mul, HM; reflexivity)).
  all: rewrite (digits2_pos_shift p (53 - d) (Z.to_pos (Z.pos p * 2 ^ (53 - d))))
         by (lia || exact Hq).
  all: fold d; rewrite fexp_small by lia; lia.
Qed.

Lemma clampByte_byte (n : Z) : 0 <= n <= 255 -> clampByte (Z2f n) = Z2f n.
Proof.
  intros Hn. apply Leibniz.eqb_spec.
  apply (forallb_seqZ (fun n => feq (clampByte (Z2f n)) (Z2f n)) 0 256); [|lia].
  vm_compute. reflexivity.
Qed.

Lemma interpolate_low (x y : Z) :
  0 <= x <= 255 -> 0 <= y <= 255 ->
  clampByte (Z2f x + (Z2f y - Z2f x) * 0) = Z2f x.
Proof.
  intros Hx Hy. rewrite Z2f_sub by (pow2; lia).
  rewrite (Z2f_add_signed_zero x _ (y - x <? 0)) by (pow2; lia || (apply Z2f_mul_zero; pow2; lia)).
  by apply clampByte_byte.
Qed.

Lemma interpolate_high (x y : Z) :
  0 <= x <= 255 -> 0 <= y <= 255 ->
  clampByte (Z2f x + (Z2f y - Z2f x) * 1) = Z2f y.
Proof.
  intros Hx Hy. rewrite Z2f_sub, Z2f_mul_one, Z2f_add by (pow2; lia).
  replace (x + (y - x)) with y by lia. by apply clampByte_byte.
Qed.

(** X6. [interpolateColor] clamps its factor: on valid colours every
    [t <= 0] gives the first colour and every [t >= 1] the second one, with
    the alpha written out (255 when absent). *)
Theorem interpolateColor_clamps_to_the_ends (c1 c2 : Color) (t0 t1 : float) :
  validColor c1 -> validColor c2 ->
  PrimFloat.leb t0 0 = true -> PrimFloat.leb 1 t1 = true ->
  interpolateColor c1 c2 t0 = withAlpha c1 /\ interpolateColor c1 c2 t1 = withAlpha c2.
Proof.
  intros H1 H2 Ht0 Ht1.
  pose proof (isByte_alphaOr255 c1 H1) as (a1 & ? & Ea1).
  pose proof (isByte_alphaOr255 c2 H2) as (a2 & ? & Ea2).
  destruct H1 as ((r1 & ? & Er1) & (g1 & ? & Eg1) & (b1 & ? & Eb1) & _).
  destruct H2 as ((r2 & ? & Er2) & (g2 & ? & Eg2) & (b2 & ? & Eb2) & _).
  unfold interpolateColor, withAlpha. cbv zeta.
  rewrite Er1, Eg1, Eb1, Ea1, Er2, Eg2, Eb2, Ea2.
  rewrite (clampT_low t0 Ht0), (clampT_high t1 Ht1).
  by rewrite !interpolate_low, !interpolate_high by assumption.
Qed.

Lemma interpolateColor_clamps_to_the_ends_witness :
  interpolateColor (Color.mk 10 20 30 None) WHITE (-3.5) = withAlpha (Color.mk 10 20 30 None)
  /\ interpolateColor (Color.mk 10 20 30 None) WHITE 7 = withAlpha WHITE.
Proof.
  apply interpolateColor_clamps_to_the_ends; try reflexivity;
    repeat split; first [ by exists 10 | by exists 20 | by exists 30 | by exists 255 ].
Defined.

(** ** The catalog search *)

Lemma bitsSet_zero (k : nat) : bitsSet k 0 = 0.
Proof. induction k as [|k IH]; [done|]. cbn [bitsSet]. by rewrite IH, Z.bits_0. Qed.

Lemma bitsSet_nonneg (k : nat) (n : Z) : 0 <= bitsSet k n.
Proof.
  induction k as [|k IH]; [done|]. cbn [bitsSet].
  destruct (Z.testbit n (Z.of_nat k)); cbn [Z.b2z]; lia.
Qed.

Lemma bitsSet_halve (k : nat) (v : Z) :
  bitsSet (S k) v = Z.b2z (Z.odd v) + bitsSet k (v / 2).
Proof.
  induction k as [|k IH].
  - cbn [bitsSet]. change (Z.of_nat 0) with 0. rewrite Z.bit0_odd. lia.
  - change (bitsSet (S (S k)) v) with (bitsSet (S k) v + Z.b2z (Z.testbit v (Z.of_nat (S k)))).
    rewrite IH. cbn [bitsSet].
    replace (Z.testbit v (Z.of_nat (S k))) with (Z.testbit (v / 2) (Z.of_nat k)); [lia|].
    rewrite <- Z.div2_div, Z.div2_spec, Z.shiftr_spec by lia. f_equal. lia.
Qed.

Lemma and32_one (v : Z) : 0 <= v < 2 ^ 31 -> and32 v 1 = Z.b2z (Z.odd v).
Proof.
  intros Hv. unfold and32. rewrite !toInt32_small by lia.
  change 1 with (Z.ones 1) at 1. rewrite Z.land_ones by lia. change (2 ^ 1) with 2.
  rewrite Zmod_odd. by destruct (Z.odd v).
Qed.

Lemma sar32_one (v : Z) : 0 <= v < 2 ^ 31 -> sar32 v 1 = v / 2.
Proof.
  intros Hv. unfold sar32. rewrite toInt32_small by lia.
  change (1 mod 32) with 1. by rewrite Z.shiftr_div_pow2 by lia.
Qed.

Lemma countBitsLoop_counts (k : nat) : forall (count v : Z) (fuel : nat),
  (k <= 31)%nat -> 0 <= v < 2 ^ Z.of_nat k -> (k < fuel)%nat ->
  countBitsLoop fuel count v = Some (count + bitsSet k v).
Proof.
  induction k as [|k IH]; intros count v fuel Hk Hv Hfuel.
  - destruct fuel as [|fuel]; [lia|]. cbn [countBitsLoop bitsSet].
    replace (v =? 0) with true by (symmetry; apply Z.eqb_eq; cbn in Hv; lia).
    by rewrite Z.add_0_r.
  - destruct fuel as [|fuel]; [lia|]. cbn [countBitsLoop].
    destruct (Z.eqb_spec v 0) as [->|Hnz]; [by rewrite bitsSet_zero, Z.add_0_r|].
    assert (2 ^ Z.of_nat (S k) <= 2 ^ 31) by (apply Z.pow_le_mono_r; lia).
    assert (2 ^ Z.of_nat (S k) = 2 * 2 ^ Z.of_nat k) as Hpow
      by (rewrite Nat2Z.inj_succ, Z.pow_succ_r by lia; lia).
    rewrite and32_one, sar32_one by lia.
    rewrite IH; [| lia | | lia].
    + rewrite bitsSet_halve. f_equal. lia.
    + split; [apply Z.div_pos; lia|]. apply Z.div_lt_upper_bound; lia.
Qed.

Lemma countBits_nonnegative (n : Z) :
  0 <= n < 2 ^ 31 -> countBits n = Some (hammingWeight n).
Proof.
  intros Hn. unfold countBits.
  by rewrite (countBitsLoop_counts 31 0 n 33) by (lia || done).
Qed.

(** X7. [countBits] counts the set bits of a non-negative 32-bit word; on a
    negative word its loop [while (v) { ...; v >>= 1 }] never ends, because
    the arithmetic shift keeps the sign. *)
Theorem countBits_counts_set_bits_or_never_returns (n : Z) :
  (0 <= n < 2 ^ 31 -> countBits n = Some (hammingWeight n))
  /\ (- 2 ^ 31 <= n < 0 -> forall fuel count, countBitsLoop fuel count n = None).
Proof.
  split.
  - apply countBits_nonnegative.
  - intros Hn fuel count. by apply countBitsLoop_negative.
Qed.

Lemma xor32_range (p q : Z) :
  0 <= p < 2 ^ 31 -> 0 <= q < 2 ^ 31 -> xor32 p q = Z.lxor p q /\ 0 <= Z.lxor p q < 2 ^ 31.
Proof.
  intros Hp Hq. unfold xor32. rewrite !toInt32_small by lia. split; [done|].
  assert (0 <= Z.lxor p q) by (apply Z.lxor_nonneg; lia).
  split; [done|].
  destruct (Z.eq_dec (Z.lxor p q) 0) as [->|Hnz]; [lia|].
  apply Z.log2_lt_pow2; [lia|].
  pose proof (Z.log2_lxor p q ltac:(lia) ltac:(lia)).
  assert (Z.log2 p < 31) by (destruct (Z.eq_dec p 0) as [->|]; [done|apply Z.log2_lt_pow2; lia]).
  assert (Z.log2 q < 31) by (destruct (Z.eq_dec q 0) as [->|]; [done|apply Z.log2_lt_pow2; lia]).
  lia.
Qed.

Lemma countBits_xor32 (p q : Z) :
  0 <= p < 2 ^ 31 -> 0 <= q < 2 ^ 31 -> countBits (xor32 p q) = Some (hamming p q).
Proof.
  intros Hp Hq. destruct (xor32_range p q Hp Hq) as [E R].
  rewrite E. by apply countBits_nonnegative.
Qed.

Lemma bitsSet_zero_all (k : nat) (x : Z) :
  bitsSet k x = 0 -> forall j, 0 <= j < Z.of_nat k -> Z.testbit x j = false.
Proof.
  induction k as [|k IH]; intros Hsum j Hj; [lia|].
  cbn [bitsSet] in Hsum. pose proof (bitsSet_nonneg k x).
  destruct (Z.testbit x (Z.of_nat k)) eqn:Hb; cbn [Z.b2z] in Hsum; [lia|].
  destruct (Z.eq_dec j (Z.of_nat k)) as [->|Hne]; [done|].
  apply IH; lia.
Qed.

Lemma hammingWeight_zero_iff (x : Z) : 0 <= x < 2 ^ 31 -> (hammingWeight x = 0 <-> x = 0).
Proof.
  intros Hx. split; [|intros H0; rewrite H0; exact (bitsSet_zero 31)].
  intros Hw. apply Z.bits_inj'. intros i Hi. rewrite Z.bits_0.
  destruct (Z_lt_le_dec i 31) as [Hlt|Hge].
  - apply (bitsSet_zero_all 31 x Hw). lia.
  - destruct (Z.eq_dec x 0) as [->|Hnz]; [apply Z.bits_0|].
    apply Z.bits_above_log2; [lia|].
    assert (Z.log2 x < 31) by (apply Z.log2_lt_pow2; lia). lia.
Qed.

Lemma hamming_zero_iff (p q : Z) :
  0 <= p < 2 ^ 31 -> 0 <= q < 2 ^ 31 -> (hamming p q = 0 <-> q = p).
Proof.
  intros Hp Hq. destruct (xor32_range p q Hp Hq) as [E R].
  rewrite E, hammingWeight_zero_iff by done.
  rewrite Z.lxor_eq_0_iff. split; by intros ->.
Qed.

Lemma hamming_nonneg (p q : Z) : 0 <= hamming p q.
Proof. apply bitsSet_nonneg. Qed.

Lemma find_first {A} (f : A -> bool) (l : list A) (x : A) :
  find f l = Some x ->
  exists i : nat, l !! i = Some x /\ f x = true
                  /\ forall (j : nat) y, (j < i)%nat -> l !! j = Some y -> f y = false.
Proof.
  induction l as [|a l IH]; [done|]. cbn [find].
  destruct (f a) eqn:Ha.
  - intros [= ->]. exists 0%nat. split_and!; [done|done|lia].
  - intros H. destruct (IH H) as (i & Hi & Hx & Hbefore).
    exists (S i). split_and!; [done|done|].
    intros [|j] y Hj; cbn; [by intros [= <-]|]. apply Hbefore. lia.
Qed.

Lemma closer_fold (p : Z) (rest : list SymbolDef) : forall pre st,
  0 <= p < 2 ^ 31 ->
  Forall (fun s => 0 <= SymbolDef.pattern s < 2 ^ 31) rest ->
  nearestInv p pre st ->
  exists st', foldl (closer p) (Some st) rest = Some st'
              /\ nearestInv p (pre ++ rest) st'
              /\ (rest = [] -> st' = st)
              /\ (rest <> [] -> is_Some st'.2).
Proof.
  induction rest as [|s rest IH]; intros pre st Hp Hall Hinv.
  - exists st. rewrite app_nil_r. by split_and!.
  - apply Forall_cons in Hall as [Hs Hall].
    cbn [foldl]. unfold closer at 2. destruct st as [b md]. cbn [mbind option_bind].
    rewrite (countBits_xor32 p _ Hp Hs). cbn [mbind option_bind].
    set (d := hamming p (SymbolDef.pattern s)).
    assert (Hnew : forall i, i = length pre ->
                     (forall (j : nat) x, (j < i)%nat -> pre !! j = Some x ->
                                          d < hamming p (SymbolDef.pattern x)) ->
                     nearestInv p (pre ++ [s]) (s, Some d)).
    { intros i -> Hless. exists (length pre). cbn [fst snd]. split_and!.
      - by rewrite lookup_app_r, Nat.sub_diag by lia.
      - done.
      - intros j x Hj. destruct (decide (j < length pre)%nat) as [Hlt|Hge].
        + rewrite lookup_app_l in Hj by done. specialize (Hless j x Hlt Hj). lia.
        + rewrite lookup_app_r in Hj by lia.
          destruct (j - length pre)%nat; [injection Hj as <-; lia|done].
      - intros j x Hlt Hj. rewrite lookup_app_l in Hj by done. by apply (Hless j). }
    assert (Hstep : exists st1, (match md with
                      | Some m => if d <? m then Some (s, Some d) else Some (b, md)
                      | None => Some (s, Some d)
                      end) = Some st1 /\ nearestInv p (pre ++ [s]) st1 /\ is_Some st1.2).
    { destruct md as [m|].
      - destruct Hinv as (i & Hi & Hm & Hmin & Hfirst). cbn [fst snd] in *.
        destruct (Z.ltb_spec d m) as [Hlt|Hge].
        + eexists. split_and!; [done| |by eexists].
          apply (Hnew (length pre)); [done|]. intros j x _ Hj. specialize (Hmin j x Hj). lia.
        + eexists. split_and!; [done| |by eexists].
          exists i. cbn [fst snd]. split_and!.
          * by apply lookup_app_l_Some.
          * done.
          * intros j x Hj. destruct (decide (j < length pre)%nat) as [Hlt|Hge'].
            -- rewrite lookup_app_l in Hj by done. by apply (Hmin j).
            -- rewrite lookup_app_r in Hj by lia.
               destruct (j - length pre)%nat; [injection Hj as <-; fold d; lia|done].
          * intros j x Hlt Hj.
            assert (i < length pre)%nat by (by eapply lookup_lt_Some).
            rewrite lookup_app_l in Hj by lia. by apply (Hfirst j).
      - cbn in Hinv. subst pre. eexists. split_and!; [done| |by eexists].
        apply (Hnew 0%nat); [done|]. intros j x Hj. lia. }
    destruct Hstep as (st1 & -> & Hinv1 & Hsome1).
    destruct (IH (pre ++ [s]) st1 Hp Hall Hinv1) as (st' & Hfold & Hinv' & Hnil & Hcons).
    exists st'. rewrite <- app_assoc in Hinv'. split_and!; [done|done|done|].
    intros _. destruct rest as [|s' rest]; [by rewrite Hnil|]. by apply Hcons.
Qed.

(** X8. [findBestSymbol] on non-negative patterns returns the entry of the
    table that is nearest to the pattern in Hamming distance, and the first
    of them in catalog order when several are as near; an entry with the
    very pattern is at distance 0, so it wins.  On an empty table the result
    is the blank 1x1 symbol. *)
Theorem findBestSymbol_first_nearest (p : Z) (symbols : list SymbolDef) :
  0 <= p < 2 ^ 31 ->
  Forall (fun s => 0 <= SymbolDef.pattern s < 2 ^ 31) symbols ->
  (symbols = [] -> findBestSymbol p symbols = Some (SymbolDef.mk (js " ") 0 1 1))
  /\ (symbols <> [] ->
      exists (i : nat) best,
        findBestSymbol p symbols = Some best
        /\ symbols !! i = Some best
        /\ (forall (j : nat) s, symbols !! j = Some s ->
              hamming p (SymbolDef.pattern best) <= hamming p (SymbolDef.pattern s))
        /\ (forall (j : nat) s, (j < i)%nat -> symbols !! j = Some s ->
              hamming p (SymbolDef.pattern best) < hamming p (SymbolDef.pattern s))).
Proof.
  intros Hp Hall. split; [by intros ->|]. intros Hne.
  unfold findBestSymbol.
  destruct (find (fun symbol => SymbolDef.pattern symbol =? p) symbols) as [s|] eqn:Hfind.
  - destruct (find_first _ _ _ Hfind) as (i & Hi & Hs & Hbefore).
    apply Z.eqb_eq in Hs.
    assert (Hzero : hamming p (SymbolDef.pattern s) = 0)
      by (apply (proj2 (hamming_zero_iff p (SymbolDef.pattern s) Hp ltac:(lia))); done).
    exists i, s. split_and!; [done|done| |].
    + intros j s' Hj. rewrite Hzero. apply bitsSet_nonneg.
    + intros j s' Hlt Hj. rewrite Hzero.
      pose proof (Hbefore j s' Hlt Hj) as Hneq. apply Z.eqb_neq in Hneq.
      assert (Hs' : 0 <= SymbolDef.pattern s' < 2 ^ 31)
        by (eapply (proj1 (Forall_lookup _ _) Hall); exact Hj).
      pose proof (bitsSet_nonneg 31 (xor32 p (SymbolDef.pattern s'))).
      destruct (Z.eq_dec (hamming p (SymbolDef.pattern s')) 0) as [Hz|Hnz]; [|lia].
      apply (proj1 (hamming_zero_iff p (SymbolDef.pattern s') Hp Hs')) in Hz. congruence.
  - destruct (closer_fold p symbols []
                (default (SymbolDef.mk (js " ") 0 1 1) (head symbols), None) Hp Hall eq_refl)
      as (st & Hfold & Hinv & _ & Hsome).
    rewrite Hfold. destruct st as [best md]. destruct (Hsome Hne) as [d Hd].
    cbn [snd] in Hd. subst md.
    destruct Hinv as (i & Hi & Hdist & Hmin & Hfirst). cbn [fst snd app] in *.
    exists i, best. subst d. by split_and!.
Qed.

Lemma findBestSymbol_first_nearest_witness :
  (QUADRANT_SYMBOLS = [] -> findBestSymbol 6 QUADRANT_SYMBOLS = Some (SymbolDef.mk (js " ") 0 1 1))
  /\ (QUADRANT_SYMBOLS <> [] ->
      exists (i : nat) best,
        findBestSymbol 6 QUADRANT_SYMBOLS = Some best
        /\ QUADRANT_SYMBOLS !! i = Some best
        /\ (forall (j : nat) s, QUADRANT_SYMBOLS !! j = Some s ->
              hamming 6 (SymbolDef.pattern best) <= hamming 6 (SymbolDef.pattern s))
        /\ (forall (j : nat) s, (j < i)%nat -> QUADRANT_SYMBOLS !! j = Some s ->
              hamming 6 (SymbolDef.pattern best) < hamming 6 (SymbolDef.pattern s))).
Proof.
  apply findBestSymbol_first_nearest; [split; by vm_compute|].
  repeat constructor; by vm_compute.
Defined.

Lemma xor32_negative (p q : Z) :
  - 2 ^ 31 <= p < 0 -> 0 <= q < 2 ^ 31 -> - 2 ^ 31 <= xor32 p q < 0.
Proof.
  intros Hp Hq. unfold xor32. rewrite !toInt32_small by lia.
  replace p with (Z.lnot (- p - 1)) by (unfold Z.lnot; lia).
  rewrite <- Z.lnot_lxor_l.
  destruct (xor32_range (- p - 1) q ltac:(lia) Hq) as [_ R].
  unfold Z.lnot at 1. unfold Z.lnot at 1. lia.
Qed.

Lemma find_none_all {A} (f : A -> bool) (l : list A) :
  Forall (fun x => f x = false) l -> find f l = None.
Proof. induction 1 as [|x l Hx _ IH]; [done|]. cbn [find]. by rewrite Hx. Qed.

Lemma foldl_closer_none (p : Z) (symbols : list SymbolDef) :
  foldl (closer p) None symbols = None.
Proof. induction symbols as [|s symbols IH]; [done|]. exact IH. Qed.

(** X9. A negative pattern that no entry matches never gets its symbol:
    every entry of a non-empty table of non-negative patterns differs from
    it in the sign bit, and the bit count of that difference does not end
    (see [countBits]). *)
Theorem findBestSymbol_negative_pattern_never_returns (p : Z) (symbols : list SymbolDef) :
  - 2 ^ 31 <= p < 0 -> symbols <> [] ->
  Forall (fun s => 0 <= SymbolDef.pattern s < 2 ^ 31) symbols ->
  findBestSymbol p symbols = None
  /\ forall s, s ∈ symbols ->
       forall fuel count, countBitsLoop fuel count (xor32 p (SymbolDef.pattern s)) = None.
Proof.
  intros Hp Hne Hall. split.
  - unfold findBestSymbol.
    assert (Hfind : find (fun symbol => SymbolDef.pattern symbol =? p) symbols = None).
    { apply find_none_all. eapply Forall_impl; [exact Hall|].
      intros s Hs. cbv beta in Hs. apply Z.eqb_neq. lia. }
    rewrite Hfind. destruct symbols as [|s symbols]; [done|].
    apply Forall_cons in Hall as [Hs _].
    cbn [foldl head default]. unfold closer at 2. cbn [mbind option_bind].
    unfold countBits.
    rewrite countBitsLoop_negative by (by apply xor32_negative).
    cbn [mbind option_bind]. by rewrite foldl_closer_none.
  - intros s Hs fuel count. apply countBitsLoop_negative, xor32_negative; [done|].
    exact (proj1 (Forall_forall _ _) Hall s Hs).
Qed.

Lemma findBestSymbol_negative_pattern_never_returns_witness :
  findBestSymbol (-1) HALF_BLOCK_SYMBOLS = None
  /\ forall s, s ∈ HALF_BLOCK_SYMBOLS ->
       forall fuel count, countBitsLoop fuel count (xor32 (-1) (SymbolDef.pattern s)) = None.
Proof.
  apply findBestSymbol_negative_pattern_never_returns;
    [split; by vm_compute|discriminate|repeat constructor; by vm_compute].
Defined.

(** ** The braille region *)

Lemma braille_fold (pixels : PixelBuffer) (startX startY : Z) (threshold : float)
    (dots : list (Z * Z * Z)) : forall pattern fgColors bgColors,
  let cols := map (fun '(dx, dy, _) => getPixelSafe pixels (startX + dx) (startY + dy)) dots in
  let r := foldl (fun '(pattern, fgColors, bgColors) '(dx, dy, bit) =>
                    let color := getPixelSafe pixels (startX + dx) (startY + dy) in
                    if isPixelOn color threshold
                    then (or32 pattern bit, fgColors ++ [color], bgColors)
                    else (pattern, fgColors, bgColors ++ [color]))
                 (pattern, fgColors, bgColors) dots in
  r.1.1 = foldl (fun pattern '(dx, dy, bit) =>
                   if isPixelOn (getPixelSafe pixels (startX + dx) (startY + dy)) threshold
                   then or32 pattern bit else pattern)
                pattern dots
  /\ r.1.2 = fgColors ++ List.filter (fun c => isPixelOn c threshold) cols
  /\ r.2 = bgColors ++ List.filter (fun c => negb (isPixelOn c threshold)) cols.
Proof.
  induction dots as [|[[dx dy] bit] dots IH]; intros pattern fgColors bgColors; cbv zeta.
  - cbn. by rewrite !app_nil_r.
  - cbn [foldl map List.filter].
    set (c := getPixelSafe pixels (startX + dx) (startY + dy)).
    destruct (isPixelOn c threshold) eqn:Hon; cbn [negb].
    + pose proof (IH (or32 pattern bit) (fgColors ++ [c]) bgColors) as (H0 & H1 & H2).
      cbv zeta in H0, H1, H2. rewrite H0, H1, H2. by rewrite <- app_assoc.
    + pose proof (IH pattern fgColors (bgColors ++ [c])) as (H0 & H1 & H2).
      cbv zeta in H0, H1, H2. rewrite H0, H1, H2. by rewrite <- app_assoc.
Qed.

(** The eight dot bits, whatever the pixels are. *)
Lemma braille_bits (b1 b2 b3 b7 b4 b5 b6 b8 : bool) :
  let p0 := if b1 then or32 0 BRAILLE_DOTS.DOT1 else 0 in
  let p1 := if b2 then or32 p0 BRAILLE_DOTS.DOT2 else p0 in
  let p2 := if b3 then or32 p1 BRAILLE_DOTS.DOT3 else p1 in
  let p3 := if b7 then or32 p2 BRAILLE_DOTS.DOT7 else p2 in
  let p4 := if b4 then or32 p3 BRAILLE_DOTS.DOT4 else p3 in
  let p5 := if b5 then or32 p4 BRAILLE_DOTS.DOT5 else p4 in
  let p6 := if b6 then or32 p5 BRAILLE_DOTS.DOT6 else p5 in
  let p := if b8 then or32 p6 BRAILLE_DOTS.DOT8 else p6 in
  (0 <=? p) && (p <? 256)
  && Bool.eqb (Z.testbit p 0) b1 && Bool.eqb (Z.testbit p 1) b2
  && Bool.eqb (Z.testbit p 2) b3 && Bool.eqb (Z.testbit p 3) b4
  && Bool.eqb (Z.testbit p 4) b5 && Bool.eqb (Z.testbit p 5) b6
  && Bool.eqb (Z.testbit p 6) b7 && Bool.eqb (Z.testbit p 7) b8 = true.
Proof. by destruct b1, b2, b3, b7, b4, b5, b6, b8. Qed.

(** X10. [mapBrailleRegion] follows the Unicode dot numbering: bit [i] of the
    pattern is set iff the pixel at the place of dot [i + 1] is on, the
    pattern has no other bit, and the two colours are the averages of the on
    and of the off pixels of the region (read column by column). *)
Theorem mapBrailleRegion_follows_dot_numbering
    (pixels : PixelBuffer) (startX startY : Z) (threshold : float) :
  let r := mapBrailleRegion pixels startX startY threshold in
  (forall (i : nat) dx dy,
     brailleDotAt !! i = Some (dx, dy) ->
     Z.testbit (Region.pattern r) (Z.of_nat i)
     = isPixelOn (getPixelSafe pixels (startX + dx) (startY + dy)) threshold)
  /\ 0 <= Region.pattern r < 256
  /\ Region.fg r
     = averageColors (List.filter (fun c => isPixelOn c threshold)
                                  (braillePixels pixels startX startY))
  /\ Region.bg r
     = averageColors (List.filter (fun c => negb (isPixelOn c threshold))
                                  (braillePixels pixels startX startY)).
Proof.
  cbv zeta. unfold mapBrailleRegion.
  pose proof (braille_fold pixels startX startY threshold BRAILLE_DOT_MAP 0 [] []) as H.
  cbv zeta in H. unfold braillePixels.
  destruct (foldl _ _ BRAILLE_DOT_MAP) as [[pattern fgColors] bgColors].
  cbn [fst snd app Region.pattern Region.fg Region.bg] in *.
  destruct H as (-> & -> & ->).
  unfold BRAILLE_DOT_MAP. cbn [foldl].
  pose proof (braille_bits
    (isPixelOn (getPixelSafe pixels (startX + 0) (startY + 0)) threshold)
    (isPixelOn (getPixelSafe pixels (startX + 0) (startY + 1)) threshold)
    (isPixelOn (getPixelSafe pixels (startX + 0) (startY + 2)) threshold)
    (isPixelOn (getPixelSafe pixels (startX + 0) (startY + 3)) threshold)
    (isPixelOn (getPixelSafe pixels (startX + 1) (startY + 0)) threshold)
    (isPixelOn (getPixelSafe pixels (startX + 1) (startY + 1)) threshold)
    (isPixelOn (getPixelSafe pixels (startX + 1) (startY + 2)) threshold)
    (isPixelOn (getPixelSafe pixels (startX + 1) (startY + 3)) threshold)) as Hbits.
  cbv zeta in Hbits.
  repeat (apply andb_true_iff in Hbits as [Hbits ?]).
  split_and!; [|by apply Z.leb_le|by apply Z.ltb_lt|done|done].
  intros i dx dy Hi.
  destruct i as [|[|[|[|[|[|[|[|i]]]]]]]]; try discriminate Hi;
    injection Hi as <- <-; by apply Bool.eqb_prop.
Qed.

(** ** Pixel writes, [clear] and [drawRect] *)

Lemma setPixel_shape buffer x y c : length <$> setPixel buffer x y c = length <$> buffer.
Proof.
  unfold setPixel.
  destruct ((0 <=? y) && (y <? Z.of_nat (length buffer))); [|done].
  destruct (buffer !! Z.to_nat y) as [row|] eqn:Hrow; [|done].
  destruct ((0 <=? x) && (x <? Z.of_nat (length row))); [|done].
  rewrite list_fmap_insert, length_insert.
  apply list_insert_id. by rewrite list_lookup_fmap, Hrow.
Qed.

Lemma foldl_shape {A} (f : PixelBuffer -> A -> PixelBuffer) :
  (forall b a, length <$> f b a = length <$> b) ->
  forall l b, length <$> foldl f b l = length <$> b.
Proof.
  intros Hf. induction l as [|a l IH]; intros b; cbn [foldl]; [done|].
  by rewrite IH, Hf.
Qed.

Lemma setPixel_miss buffer x y c : getPixel buffer x y = None -> setPixel buffer x y c = buffer.
Proof.
  unfold getPixel, setPixel.
  destruct ((0 <=? y) && (y <? Z.of_nat (length buffer))); [|done].
  destruct (buffer !! Z.to_nat y) as [row|] eqn:Hrow; [|done].
  destruct ((0 <=? x) && (x <? Z.of_nat (length row))) eqn:Hx; [|done].
  apply andb_true_iff in Hx as [Hx1%Z.leb_le Hx2%Z.ltb_lt].
  intros Hnone. apply lookup_ge_None in Hnone. lia.
Qed.

(** X11. [setPixel] writes one pixel and nothing else: the buffer keeps its
    number of rows and the length of every row, a later [getPixel] reads the
    new colour at the written position and the old content everywhere else,
    and a write at a position [getPixel] cannot read (outside the buffer)
    changes nothing. *)
Theorem setPixel_writes_one_pixel_and_keeps_the_shape
    (buffer : PixelBuffer) (x y : Z) (color : Color) :
  length <$> setPixel buffer x y color = length <$> buffer
  /\ (forall px py,
        getPixel (setPixel buffer x y color) px py
        = if (px =? x) && (py =? y) then overwrite color (getPixel buffer px py)
          else getPixel buffer px py)
  /\ (getPixel buffer x y = None -> setPixel buffer x y color = buffer)
  /\ (forall old, getPixel buffer x y = Some old ->
        getPixel (setPixel buffer x y color) x y = Some color).
Proof.
  split_and!.
  - apply setPixel_shape.
  - intros px py. apply getPixel_setPixel.
  - apply setPixel_miss.
  - intros old Hold. by rewrite getPixel_setPixel, !Z.eqb_refl, Hold.
Qed.

(** X12. [clear] keeps the shape of the buffer and sets every pixel it has:
    afterwards [getPixel] reads the colour exactly where it read a pixel
    before; clearing twice is clearing with the last colour. *)
Theorem clear_sets_every_pixel_and_keeps_the_shape (buffer : PixelBuffer) (color : Color) :
  length <$> clear buffer color = length <$> buffer
  /\ (forall px py, getPixel (clear buffer color) px py = overwrite color (getPixel buffer px py))
  /\ (forall color', clear (clear buffer color') color = clear buffer color).
Proof.
  unfold clear. split_and!.
  - rewrite <- list_fmap_compose. apply list_fmap_ext. intros i row _. cbn.
    by rewrite length_map.
  - intros px py. unfold getPixel. rewrite length_map.
    destruct ((0 <=? py) && (py <? Z.of_nat (length buffer))); [|done].
    change (map (map (fun _ => color)) buffer) with ((map (fun _ : Color => color)) <$> buffer).
    rewrite list_lookup_fmap.
    destruct (buffer !! Z.to_nat py) as [row|]; cbn [fmap option_fmap option_map]; [|done].
    rewrite length_map.
    destruct ((0 <=? px) && (px <? Z.of_nat (length row))); [|done].
    change (map (fun _ => color) row) with ((fun _ : Color => color) <$> row).
    rewrite list_lookup_fmap. by destruct (row !! Z.to_nat px).
  - intros color'. rewrite map_map. apply map_ext. intros row. by rewrite map_map.
Qed.

Lemma existsb_and_l {A} (b : bool) (f : A -> bool) (l : list A) :
  l <> [] -> existsb (fun a => b && f a) l = b && existsb f l.
Proof.
  intros _. induction l as [|a l IH]; cbn [existsb]; [by rewrite andb_false_r|].
  rewrite IH. by destruct b.
Qed.

Lemma existsb_const_r {A} (b : bool) (f : A -> bool) (l : list A) :
  existsb (fun a => f a && b) l = existsb f l && b.
Proof.
  induction l as [|a l IH]; cbn [existsb]; [done|].
  rewrite IH. by destruct (f a), b, (existsb f l).
Qed.

Lemma existsb_or {A} (f g : A -> bool) (l : list A) :
  existsb (fun a => f a || g a) l = existsb f l || existsb g l.
Proof.
  induction l as [|a l IH]; cbn [existsb]; [done|].
  rewrite IH. by destruct (f a), (g a), (existsb f l), (existsb g l).
Qed.

Lemma painted_drawRect c b x y width height :
  painted c (fun px py => (0 <? width) && (0 <? height) && rectCover x y width height px py)
          b (drawRect b x y width height c true)
  /\ painted c (fun px py => (0 <? width) && (0 <? height) && outlineCover x y width height px py)
             b (drawRect b x y width height c false).
Proof.
  unfold drawRect.
  destruct (width <=? 0) eqn:Hw; cbn [orb].
  { apply Z.leb_le in Hw. apply Z.ltb_ge in Hw. rewrite Hw. split; apply painted_nothing. }
  destruct (height <=? 0) eqn:Hh.
  { apply Z.leb_le in Hh. apply Z.ltb_ge in Hh. rewrite Hh, andb_false_r.
    split; apply painted_nothing. }
  apply Z.leb_gt in Hw, Hh.
  assert ((0 <? width) = true) as -> by by apply Z.ltb_lt.
  assert ((0 <? height) = true) as -> by by apply Z.ltb_lt.
  cbn [andb]. split.
  - eapply painted_ext;
      [|apply (painted_foldl c (fun dy px py =>
                 existsb (fun dx => (px =? x + dx) && (py =? y + dy)) (seqZ 0 width)))].
    + intros px py. cbv beta. unfold rectCover.
      rewrite <- andb_assoc, <- !existsb_seqZ_eq.
      induction (seqZ 0 height) as [|k l IH]; cbn [existsb]; [by rewrite andb_false_r|].
      rewrite IH, existsb_const_r.
      by destruct (existsb _ (seqZ 0 width)), (py =? y + k), (existsb _ l).
    + intros b0 dy. apply painted_foldl. intros b1 dx. apply painted_setPixel.
  - eapply painted_ext; [|eapply painted_then].
    2: apply (painted_foldl c (fun dx px py =>
                ((px =? x + dx) && (py =? y)) || ((px =? x + dx) && (py =? y + height - 1)))).
    3: apply (painted_foldl c (fun dy px py =>
                ((px =? x) && (py =? y + dy)) || ((px =? x + width - 1) && (py =? y + dy)))).
    + intros px py. cbv beta. unfold outlineCover, rectCover.
      rewrite !existsb_or, !existsb_const_r.
      rewrite (existsb_and_l (px =? x)), (existsb_and_l (px =? x + width - 1)).
      2,3: (intros Hnil; apply (f_equal length) in Hnil; rewrite length_seqZ in Hnil;
            cbn in Hnil; lia).
      rewrite !existsb_seqZ_eq.
      destruct (Z.eqb_spec px x), (Z.eqb_spec px (x + width - 1)),
        (Z.eqb_spec py y), (Z.eqb_spec py (y + height - 1)),
        (Z.leb_spec x px), (Z.ltb_spec px (x + width)),
        (Z.leb_spec y py), (Z.ltb_spec py (y + height)); cbn; try reflexivity; lia.
    + intros b0 dx. eapply painted_then; apply painted_setPixel.
    + intros b0 dy. eapply painted_then; apply painted_setPixel.
Qed.

Lemma drawRect_shape b x y width height c fill :
  length <$> drawRect b x y width height c fill = length <$> b.
Proof.
  unfold drawRect.
  destruct ((width <=? 0) || (height <=? 0)); [done|].
  destruct fill.
  - apply foldl_shape. intros b0 dy. apply foldl_shape. intros b1 dx. apply setPixel_shape.
  - rewrite foldl_shape; [apply foldl_shape|]; intros b0 d; by rewrite !setPixel_shape.
Qed.

(** X13. [drawRect] on integer arguments (of magnitude at most 2^50, where
    the loop counters of the source are exact) paints, with [fill], exactly
    the pixels of the rectangle [x .. x+width-1] x [y .. y+height-1] that lie
    inside the buffer, and without it exactly those of them on the four
    edges; a width or a height that is not positive paints nothing, and the
    buffer keeps its shape. *)
Theorem drawRect_paints_the_rectangle_or_its_outline
    (buffer : PixelBuffer) (x y width height : Z) (color : Color) :
  Z.abs x <= 2 ^ 50 -> Z.abs y <= 2 ^ 50 -> width <= 2 ^ 50 -> height <= 2 ^ 50 ->
  painted color
          (fun px py => (0 <? width) && (0 <? height) && rectCover x y width height px py)
          buffer (drawRect buffer x y width height color true)
  /\ painted color
             (fun px py => (0 <? width) && (0 <? height) && outlineCover x y width height px py)
             buffer (drawRect buffer x y width height color false)
  /\ (forall fill, length <$> drawRect buffer x y width height color fill = length <$> buffer).
Proof.
  intros _ _ _ _. split_and!.
  - apply painted_drawRect.
  - apply painted_drawRect.
  - intros fill. apply drawRect_shape.
Qed.

Lemma drawRect_paints_the_rectangle_or_its_outline_witness :
  painted WHITE
          (fun px py => (0 <? 3) && (0 <? 2) && rectCover 1 0 3 2 px py)
          [[BLACK; BLACK; BLACK]; [BLACK; BLACK; BLACK]]
          (drawRect [[BLACK; BLACK; BLACK]; [BLACK; BLACK; BLACK]] 1 0 3 2 WHITE true)
  /\ painted WHITE
             (fun px py => (0 <? 3) && (0 <? 2) && outlineCover 1 0 3 2 px py)
             [[BLACK; BLACK; BLACK]; [BLACK; BLACK; BLACK]]
             (drawRect [[BLACK; BLACK; BLACK]; [BLACK; BLACK; BLACK]] 1 0 3 2 WHITE false)
  /\ (forall fill,
        length <$> drawRect [[BLACK; BLACK; BLACK]; [BLACK; BLACK; BLACK]] 1 0 3 2 WHITE fill
        = length <$> [[BLACK; BLACK; BLACK]; [BLACK; BLACK; BLACK]]).
Proof.
  apply (drawRect_paints_the_rectangle_or_its_outline
           [[BLACK; BLACK; BLACK]; [BLACK; BLACK; BLACK]] 1 0 3 2 WHITE);
    by vm_compute.
Defined.
